(** * Raycasting sandbox: grid traversal and geometry engine

    A shallow embedding of [raycasting.py], [player.py] and [blocks.py].

    Numbers: Python's [float] (and the components of [pygame.Vector2]) are
    idealised as exact rationals [Q]; [math.inf] is the extra point [Inf] of
    [efloat].  Rounding, overflow and NaN are outside that model; where they
    decide, [step_to_edge] and [distribute_angles] are given a second time,
    on IEEE 754 binary64 numbers, in the module [Binary64].

    Loops: the two [while True] loops of [CastingRay] are given fuel; running
    out of fuel is the outcome [Timeout], an exception ([KeyError] of a dict
    lookup, [StatisticsError] of a median, [ZeroDivisionError]) is the outcome
    [Raise]. *)

From Stdlib Require Import QArith Qround Qabs ZArith List SetoidList Bool Lia Lqa.
From Stdlib Require Import Permutation Floats.
Import ListNotations.

Local Open Scope Q_scope.

(** ** Floats *)

Module Float.

Definition ltb (x y : Q) : bool := negb (Qle_bool y x).
Definition gtb (x y : Q) : bool := ltb y x.

(** [float] extended with [math.inf]. *)
Inductive efloat : Type :=
  | Fin (q : Q)
  | Inf.

(** [a < b] on extended floats. *)
Definition eltb (a b : efloat) : bool :=
  match a, b with
  | Fin x, Fin y => ltb x y
  | Fin _, Inf => true
  | Inf, _ => false
  end.

(** Python's [min(a, b)]: the first argument unless the second is smaller. *)
Definition min (a b : efloat) : efloat := if eltb b a then b else a.

(** [int(x)] of a float: truncation toward zero. *)
Definition int (x : Q) : Z := Z.quot (Qnum x) (Zpos (Qden x)).

(** [x // y] on floats: the floor of the quotient. *)
Definition floordiv (x y : Q) : Z := Qfloor (x / y).

(** [x % m]: the remainder with the sign of the divisor. *)
Definition mod_ (x m : Q) : Q := x - inject_Z (Qfloor (x / m)) * m.

End Float.

Import Float.

(** ** [pygame.Vector2] *)

Definition Vector2 : Type := (Q * Q)%type.

Module Vec.

Definition x (v : Vector2) : Q := fst v.
Definition y (v : Vector2) : Q := snd v.

(** [u + v] *)
Definition add (u v : Vector2) : Vector2 := (x u + x v, y u + y v).

(** [v * k] *)
Definition scale (v : Vector2) (k : Q) : Vector2 := (x v * k, y v * k).

(** [v.magnitude_squared()] *)
Definition magnitude_squared (v : Vector2) : Q := x v * x v + y v * y v.

End Vec.

(** ** [step_to_edge] *)

Module Edge.

(** [CastingRay.step_to_edge]: starting in a unit square, the distance to
    the edge in a given direction.  The [lru_cache] around it is
    transparent, the function being pure. *)
Definition step_to_edge (position direction : Q * Q) : efloat :=
  let step_x :=
    if gtb (fst direction) 0 then Fin ((1 - fst position) / fst direction)
    else if ltb (fst direction) 0
         then Fin (fst position / Qabs (fst direction) + 0.001)
         else Inf in
  let step_y :=
    if gtb (snd direction) 0 then Fin ((1 - snd position) / snd direction)
    else if ltb (snd direction) 0
         then Fin (snd position / Qabs (snd direction) + 0.001)
         else Inf in
  min step_x step_y.

(** The per-axis distance in the words of the specification. *)
Inductive axis_distance (offset component : Q) : efloat -> Prop :=
  | axis_zero : component == 0 -> axis_distance offset component Inf
  | axis_positive :
    0 < component ->
    axis_distance offset component (Fin ((1 - offset) / component))
  | axis_negative :
    component < 0 ->
    axis_distance offset component
      (Fin (offset / Qabs component + (1 # 1000))).

(** [m] is a minimum of [a] and [b]. *)
Definition is_min (a b m : efloat) : Prop :=
  (m = a \/ m = b) /\ eltb a m = false /\ eltb b m = false.

End Edge.

Import Edge.

(** ** Directions *)

Module Direction.

(** Modelled from the spec: [directions.py] is not among the sources.  The
    specification describes [Direction] as a 4-bit flag set over
    [{UP, DOWN, LEFT, RIGHT}], combinable by union; a value is the set of
    its bits. *)
Record t : Type := mk { up : bool; right : bool; down : bool; left : bool }.

Definition NONE : t := mk false false false false.
Definition UP : t := mk true false false false.
Definition RIGHT : t := mk false true false false.
Definition DOWN : t := mk false false true false.
Definition LEFT : t := mk false false false true.

Definition eqb (a b : t) : bool :=
  Bool.eqb (up a) (up b) && Bool.eqb (right a) (right b)
  && Bool.eqb (down a) (down b) && Bool.eqb (left a) (left b).

(** [a & b], [a | b] and [a ^ b] *)
Definition and_ (a b : t) : t :=
  mk (up a && up b) (right a && right b) (down a && down b) (left a && left b).
Definition or_ (a b : t) : t :=
  mk (up a || up b) (right a || right b) (down a || down b) (left a || left b).
Definition xor_ (a b : t) : t :=
  mk (xorb (up a) (up b)) (xorb (right a) (right b))
     (xorb (down a) (down b)) (xorb (left a) (left b)).

(** [bool(a)]: some bit is set. *)
Definition bool_ (a : t) : bool := up a || right a || down a || left a.

(** [a in {b, c}] *)
Definition in2 (a b c : t) : bool := eqb a b || eqb a c.

(** The four single sides. *)
Definition cardinal (a : t) : Prop := a = UP \/ a = RIGHT \/ a = DOWN \/ a = LEFT.

End Direction.

(** ** Blocks ([blocks.py]) *)

Inductive Wall : Type := NORMAL | BORDER.

Record Mirror : Type := { sides : Direction.t }.

(** [Mirror.toggle] *)
Definition toggle (m : Mirror) (s : Direction.t) : Mirror :=
  {| sides := Direction.xor_ (sides m) s |}.

(** A portal link: the destination cell and side. *)
Definition link : Type := ((Z * Z) * Direction.t)%type.

(** [Portal]: the dict [links] always holds the four keys UP, DOWN, LEFT and
    RIGHT, so it is kept as four optional values. *)
Record Portal : Type := {
  active : bool;
  links_up : option link;
  links_down : option link;
  links_left : option link;
  links_right : option link }.

(** [Portal()] *)
Definition new_portal : Portal :=
  {| active := true; links_up := None; links_down := None;
     links_left := None; links_right := None |}.

(** [links[side]]: the outer [None] is the [KeyError] of a side that is not
    a key. *)
Definition links_get (p : Portal) (side : Direction.t) : option (option link) :=
  if Direction.eqb side Direction.UP then Some (links_up p)
  else if Direction.eqb side Direction.DOWN then Some (links_down p)
  else if Direction.eqb side Direction.LEFT then Some (links_left p)
  else if Direction.eqb side Direction.RIGHT then Some (links_right p)
  else None.

(** The value of [Cell.type_], also the type of [RaySegment.end_type]:
    [False] for an empty cell (and for an exhausted ray), a [Wall], a
    [Mirror] or a [Portal]. *)
Inductive type_ : Type :=
| False_
| IsWall (w : Wall)
| IsMirror (m : Mirror)
| IsPortal (p : Portal).

(** Truth value of a [type_]: enum members and plain objects are true. *)
Definition truthy (c : type_) : bool :=
  match c with
  | False_ => false
  | _ => true
  end.

(** [isinstance(c, Portal)] *)
Definition is_portal (c : type_) : bool :=
  match c with
  | IsPortal _ => true
  | _ => false
  end.

(** [c is False] *)
Definition is_false (c : type_) : bool :=
  match c with
  | False_ => true
  | _ => false
  end.

(** ** The grid interface ([cells.CellMap]) *)

(** [cells.py] is not among the sources: the map is the record of the four
    members the code calls, [get_cell x y] standing for
    [cell_map.get_cell(x, y).type_]. *)
Record CellMap : Type := {
  square_size : Q;
  size : Q * Q;
  get_cell : Z -> Z -> type_;
  in_bounds : Vector2 -> bool;
  portal_transform : Vector2 -> Vector2 -> Vector2 * Vector2 }.

(** ** Outcomes *)

Inductive exn : Type := KeyError | StatisticsError | ZeroDivisionError.

Inductive outcome (A : Type) : Type :=
| Ok (a : A)
| Raise (e : exn)
| Timeout.

Arguments Ok {A} a.
Arguments Raise {A} e.
Arguments Timeout {A}.

Definition bind {A B : Type} (m : outcome A) (f : A -> outcome B) : outcome B :=
  match m with
  | Ok a => f a
  | Raise e => Raise e
  | Timeout => Timeout
  end.

Notation "x <- m ;; k" := (bind m (fun x => k))
  (at level 61, m at next level, right associativity).

(** ** [CastingRay] *)

Record RaySegment : Type := {
  start_pos : Vector2;
  end_pos : Vector2;
  distance : Q;
  end_type : type_ }.

Record CastingRay : Type := {
  direction : Vector2;
  visible_distance : Q;
  total_distance : Q;
  segment_distance : Q;
  segments : list RaySegment;
  points : list (Q * Q);
  start_position : Vector2;
  end_position : Vector2 }.

(** What a handler tells the loop of [cast]: ["break"], ["continue"] or
    the empty string. *)
Inductive action : Type := Break | Continue | Proceed.

(** [ADJACENT_OFFSETS[side]] *)
Definition ADJACENT_OFFSETS (side : Direction.t) : option (Q * Q) :=
  if Direction.eqb side Direction.UP then Some (0, -1)
  else if Direction.eqb side Direction.RIGHT then Some (1, 0)
  else if Direction.eqb side Direction.DOWN then Some (0, 1)
  else if Direction.eqb side Direction.LEFT then Some (-1, 0)
  else None.

(** [CastingRay.__init__] *)
Definition new_ray (direction : Vector2) (visible_distance : Q)
    (player_position : Vector2) : CastingRay :=
  {| direction := direction;
     visible_distance := visible_distance;
     total_distance := 0;
     segment_distance := 0;
     segments := [];
     points := [];
     start_position := player_position;
     end_position := player_position |}.

(** The segment of the current ray values:
    [RaySegment(start_position.xy, end_position.xy, segment_distance, end_type)] *)
Definition current_segment (r : CastingRay) (t : type_) : RaySegment :=
  {| start_pos := start_position r; end_pos := end_position r;
     distance := segment_distance r; end_type := t |}.

(** [add_segment_and_point] *)
Definition add_segment_and_point (r : CastingRay) (t : type_) : CastingRay :=
  {| direction := direction r;
     visible_distance := visible_distance r;
     total_distance := total_distance r;
     segment_distance := segment_distance r;
     segments := segments r ++ [ current_segment r t ];
     points := points r ++ [ (Vec.x (end_position r), Vec.y (end_position r)) ];
     start_position := start_position r;
     end_position := end_position r |}.

Definition set_direction (r : CastingRay) (d : Vector2) : CastingRay :=
  {| direction := d;
     visible_distance := visible_distance r;
     total_distance := total_distance r;
     segment_distance := segment_distance r;
     segments := segments r;
     points := points r;
     start_position := start_position r;
     end_position := end_position r |}.

(** [self.start_position, self.segment_distance = self.end_position.xy, 0] *)
Definition restart_segment (r : CastingRay) : CastingRay :=
  {| direction := direction r;
     visible_distance := visible_distance r;
     total_distance := total_distance r;
     segment_distance := 0;
     segments := segments r;
     points := points r;
     start_position := end_position r;
     end_position := end_position r |}.

(** The ray moved by [d] to [p]: the three updates that end [take_step]. *)
Definition advance (r : CastingRay) (p : Vector2) (d : Q) : CastingRay :=
  {| direction := direction r;
     visible_distance := visible_distance r;
     total_distance := total_distance r + d;
     segment_distance := segment_distance r + d;
     segments := segments r;
     points := points r;
     start_position := start_position r;
     end_position := p |}.

Section Casting.

Variable cell_map : CellMap.

(** [cells.split_position] and [cells.get_enter_side], not among the
    sources, are parameters of the ray. *)
Variable split_position : Vector2 -> Q -> Vector2 * Vector2.
Variable get_enter_side : Vector2 -> Vector2 -> Direction.t.

(** [position_step]: the offset of a step in the current direction. *)
Definition position_step (r : CastingRay) (distance : Q) : Vector2 :=
  Vec.scale (Vec.scale (direction r) distance) (square_size cell_map).

(** [mirror_reflect]: the new direction. *)
Definition mirror_reflect (r : CastingRay) (cell : Vector2)
    (enter_side : Direction.t) : outcome CastingRay :=
  match ADJACENT_OFFSETS enter_side with
  | None => Raise KeyError
  | Some offset =>
      let adjacent := Vec.add cell offset in
      let d := direction r in
      if truthy (get_cell cell_map (int (Vec.x adjacent)) (int (Vec.y adjacent)))
      then
        if Direction.in2 enter_side Direction.LEFT Direction.RIGHT
        then Ok (set_direction r (Vec.x d, Vec.y d * -1))
        else if Direction.in2 enter_side Direction.UP Direction.DOWN
        then Ok (set_direction r (Vec.x d * -1, Vec.y d))
        else Ok r
      else
        if Direction.in2 enter_side Direction.LEFT Direction.RIGHT
        then Ok (set_direction r (Vec.x d * -1, Vec.y d))
        else if Direction.in2 enter_side Direction.UP Direction.DOWN
        then Ok (set_direction r (Vec.x d, Vec.y d * -1))
        else Ok r
  end.

(** The teleport of the [Portal] case of [handle_type], after the segment
    is closed. *)
Definition teleport (r : CastingRay) : CastingRay :=
  let r1 := restart_segment r in
  let '(p, d) := portal_transform cell_map (start_position r1) (direction r1) in
  let p' := Vec.add p (Vec.scale d 0.05) in
  {| direction := d;
     visible_distance := visible_distance r1;
     total_distance := total_distance r1;
     segment_distance := segment_distance r1;
     segments := segments r1;
     points := points r1;
     start_position := p';
     end_position := p' |}.

(** [handle_type] *)
Definition handle_type (r : CastingRay) (cell_type : type_)
    (enter_side : Direction.t) (cell : Vector2) : outcome (action * CastingRay) :=
  match cell_type with
  | IsWall NORMAL => Ok (Break, add_segment_and_point r (IsWall NORMAL))
  | IsMirror m =>
      if negb (Direction.bool_ (Direction.and_ (sides m) enter_side))
      then Ok (Break, add_segment_and_point r (IsWall NORMAL))
      else
        r' <- mirror_reflect
                (restart_segment (add_segment_and_point r cell_type))
                cell enter_side ;;
        Ok (Proceed, r')
  | IsPortal p =>
      match links_get p enter_side with
      | None => Raise KeyError
      | Some None => Ok (Break, add_segment_and_point r (IsWall NORMAL))
      | Some (Some _) =>
          Ok (Continue, teleport (add_segment_and_point r cell_type))
      end
  | _ => Ok (Proceed, r)
  end.

(** The inner loop of [take_step]: cut the step by 1% until the end
    position is within bounds. *)
Fixpoint shrink (fuel : nat) (r : CastingRay) (adjusted_distance : Q)
    : outcome Q :=
  match fuel with
  | O => Timeout
  | S fuel' =>
      let adjusted_distance := adjusted_distance * 0.99 in
      let safe_end_position :=
        Vec.add (end_position r) (position_step r adjusted_distance) in
      if in_bounds cell_map safe_end_position then Ok adjusted_distance
      else shrink fuel' r adjusted_distance
  end.

(** The end of the first branch of [take_step]: the shortened step. *)
Definition finish (r : CastingRay) (adjusted_distance : Q)
    (cell_type : type_) : CastingRay :=
  add_segment_and_point
    (advance r (Vec.add (end_position r) (position_step r adjusted_distance))
       adjusted_distance)
    cell_type.

(** [take_step].  With a step of [math.inf] the comparison with the visible
    distance is true and neither [new_position] nor [in_bounds] is used. *)
Definition take_step (fuel : nat) (r : CastingRay) (cell_pos : Vector2)
    : outcome (action * CastingRay) :=
  match step_to_edge (Vec.x cell_pos, Vec.y cell_pos)
                     (Vec.x (direction r), Vec.y (direction r)) with
  | Inf => Ok (Break, finish r (visible_distance r - total_distance r) False_)
  | Fin step_distance =>
      let new_position := Vec.add (end_position r) (position_step r step_distance) in
      let new_total_distance := total_distance r + step_distance in
      if gtb new_total_distance (visible_distance r)
         || negb (in_bounds cell_map new_position)
      then
        if gtb new_total_distance (visible_distance r)
        then Ok (Break, finish r (visible_distance r - total_distance r) False_)
        else
          adjusted_distance <- shrink fuel r step_distance ;;
          Ok (Break, finish r adjusted_distance (IsWall BORDER))
      else Ok (Proceed, advance r new_position step_distance)
  end.

(** [self.points.append((self.end_position.x, self.end_position.y))] *)
Definition add_point (r : CastingRay) : CastingRay :=
  {| direction := direction r;
     visible_distance := visible_distance r;
     total_distance := total_distance r;
     segment_distance := segment_distance r;
     segments := segments r;
     points := points r ++ [ (Vec.x (end_position r), Vec.y (end_position r)) ];
     start_position := start_position r;
     end_position := end_position r |}.

(** What one pass of the loop of [cast] does: stop with the final ray, or
    go round again. *)
Inductive pass : Type :=
| Stop (r : CastingRay)
| Again (r : CastingRay).

(** One pass of the loop of [cast]. *)
Definition cast_pass (fuel : nat) (r : CastingRay) : outcome pass :=
  let r := add_point r in
  let '(cell, cell_pos) := split_position (end_position r) (square_size cell_map) in
  let cell_type := get_cell cell_map (int (Vec.x cell)) (int (Vec.y cell)) in
  let enter_side := get_enter_side cell_pos (direction r) in
  ar <- handle_type r cell_type enter_side cell ;;
  match ar with
  | (Break, r1) => Ok (Stop r1)
  | (Continue, r1) => Ok (Again r1)
  | (Proceed, r1) =>
      ar' <- take_step fuel r1 cell_pos ;;
      match ar' with
      | (Break, r2) => Ok (Stop r2)
      | (_, r2) => Ok (Again r2)
      end
  end.

(** [cast]: the loop, with fuel for its passes (and for the inner loop of
    each pass). *)
Fixpoint cast (fuel : nat) (r : CastingRay) : outcome CastingRay :=
  match fuel with
  | O => Timeout
  | S fuel' =>
      p <- cast_pass fuel' r ;;
      match p with
      | Stop r' => Ok r'
      | Again r' => cast fuel' r'
      end
  end.

End Casting.

(** ** [Raycaster] *)

(** [sorted(data)] on floats, as a stable insertion sort. *)
Fixpoint insert_sorted (x : Q) (l : list Q) : list Q :=
  match l with
  | [] => [x]
  | y :: l' => if Qle_bool x y then x :: l else y :: insert_sorted x l'
  end.

Definition sorted (data : list Q) : list Q := fold_right insert_sorted [] data.

(** [statistics.median]: the middle value of the sorted data, the mean of
    the two middle values when their number is even. *)
Definition median (data : list Q) : outcome Q :=
  let data := sorted data in
  let n := length data in
  if Nat.eqb n 0 then Raise StatisticsError
  else if Nat.eqb (n mod 2) 1 then Ok (nth (n / 2) data 0)
  else
    let i := (n / 2)%nat in
    Ok ((nth (i - 1) data 0 + nth i data 0) / 2).

(** [range(n)] as floats *)
Definition range (n : Z) : list Q :=
  map (fun k => inject_Z (Z.of_nat k)) (seq 0 (Z.to_nat n)).

(** [Raycaster.distribute_angles], for a raycaster with the given [fov] and
    [ray_count]. *)
Definition distribute_angles (fov : Q) (ray_count : Z) (center : Q)
    : outcome (list Q) :=
  let interval :=
    if (ray_count >? 1)%Z then fov / inject_Z (ray_count - 1) else 1 in
  let angles := map (fun k => k * interval) (range ray_count) in
  median <- median angles ;;
  Ok (map (fun angle => mod_ (angle + (center - median)) 360) angles).

(** ** [Player] *)

Module MovementCombo.

(** Modelled from the spec: [directions.py] is not among the sources.
    [MovementCombo] is a flag set over [{FORWARD, BACKWARD, LEFT, RIGHT}];
    [resolved] cancels opposite pairs: FORWARD with BACKWARD, LEFT with
    RIGHT. *)
Record t : Type := mk { forward : bool; backward : bool; left : bool; right : bool }.

Definition NONE : t := mk false false false false.
Definition FORWARD : t := mk true false false false.
Definition BACKWARD : t := mk false true false false.
Definition LEFT : t := mk false false true false.
Definition RIGHT : t := mk false false false true.

Definition or_ (a b : t) : t :=
  mk (forward a || forward b) (backward a || backward b)
     (left a || left b) (right a || right b).

Definition FORWARD_RIGHT : t := or_ FORWARD RIGHT.
Definition BACKWARD_RIGHT : t := or_ BACKWARD RIGHT.
Definition BACKWARD_LEFT : t := or_ BACKWARD LEFT.
Definition FORWARD_LEFT : t := or_ FORWARD LEFT.

Definition eqb (a b : t) : bool :=
  Bool.eqb (forward a) (forward b) && Bool.eqb (backward a) (backward b)
  && Bool.eqb (left a) (left b) && Bool.eqb (right a) (right b).

(** [combo.value] as a truth value *)
Definition value (a : t) : bool := forward a || backward a || left a || right a.

Definition resolved (a : t) : t :=
  let fb := forward a && backward a in
  let lr := left a && right a in
  mk (forward a && negb fb) (backward a && negb fb)
     (left a && negb lr) (right a && negb lr).

End MovementCombo.

Inductive key : Type := K_LEFT | K_RIGHT | K_LSHIFT | K_w | K_a | K_s | K_d.

(** [MOVEMENT_ANGLES.get(combo, 0)] *)
Definition MOVEMENT_ANGLES_get (c : MovementCombo.t) : Q :=
  if MovementCombo.eqb c MovementCombo.FORWARD then 0
  else if MovementCombo.eqb c MovementCombo.FORWARD_RIGHT then 45
  else if MovementCombo.eqb c MovementCombo.RIGHT then 90
  else if MovementCombo.eqb c MovementCombo.BACKWARD_RIGHT then 135
  else if MovementCombo.eqb c MovementCombo.BACKWARD then 180
  else if MovementCombo.eqb c MovementCombo.BACKWARD_LEFT then 225
  else if MovementCombo.eqb c MovementCombo.LEFT then 270
  else if MovementCombo.eqb c MovementCombo.FORWARD_LEFT then 315
  else 0.

Definition DIRECTION_BINDS : list (key * MovementCombo.t) :=
  [ (K_w, MovementCombo.FORWARD); (K_a, MovementCombo.LEFT);
    (K_s, MovementCombo.BACKWARD); (K_d, MovementCombo.RIGHT) ].

Definition SPEED_MULTIPLIER : Q := 3.

(** [pygame.math.clamp] *)
Definition clamp (value lo hi : Q) : Q :=
  if ltb value lo then lo else if gtb value hi then hi else value.

Module Player.

Record t : Type := {
  radius : Q;
  position : Vector2;
  direction : Vector2;
  rect_center : Z * Z }.

Definition set_position (p : t) (v : Vector2) : t :=
  {| radius := radius p; position := v; direction := direction p;
     rect_center := rect_center p |}.

Section Move.

Variable cell_map : CellMap.

(** [pygame.Vector2.rotate], by an angle in degrees. *)
Variable rotate : Vector2 -> Q -> Vector2.

(** What [rect.center = v] leaves in [rect.center]: a [pygame.Rect] holds
    integers. *)
Variable centered : Vector2 -> Z * Z.

(** The cell of a position: [(int(x // square_size), int(y // square_size))]. *)
Definition cell_of (x y : Q) : Z * Z :=
  (floordiv x (square_size cell_map), floordiv y (square_size cell_map)).

Definition type_at (c : Z * Z) : type_ := get_cell cell_map (fst c) (snd c).

(** The loop over [DIRECTION_BINDS], then [resolved]. *)
Definition pressed_combo (keys : key -> bool) : MovementCombo.t :=
  MovementCombo.resolved
    (fold_left
       (fun combo bind => if keys (fst bind)
                          then MovementCombo.or_ combo (snd bind) else combo)
       DIRECTION_BINDS MovementCombo.NONE).

(** [new_position] of [move] *)
Definition candidate (p : t) (keys : key -> bool) (combo : MovementCombo.t)
    : Vector2 :=
  let multiplier := if keys K_LSHIFT then SPEED_MULTIPLIER else 1 in
  let movement_angle := MOVEMENT_ANGLES_get combo in
  Vec.add (position p) (Vec.scale (rotate (direction p) movement_angle) multiplier).

(** The [else] branch of [move]: x, then y. *)
Definition glide (p : t) (new_x new_y : Q) : t :=
  let new_x_cell := cell_of new_x (Vec.y (position p)) in
  let p1 :=
    if negb (truthy (type_at new_x_cell))
    then set_position p (new_x, Vec.y (position p)) else p in
  let new_y_cell := cell_of (Vec.x (position p1)) new_y in
  if negb (truthy (type_at new_y_cell))
  then set_position p1 (Vec.x (position p1), new_y) else p1.

(** The body of [if movement_combo.value:] *)
Definition displace (p : t) (new_position : Vector2) : t :=
  let new_x := Vec.x new_position in
  let new_y := Vec.y new_position in
  let current_cell := cell_of (Vec.x (position p)) (Vec.y (position p)) in
  let new_cell := cell_of new_x new_y in
  let p' :=
    if is_portal (type_at new_cell) && is_false (type_at current_cell)
    then
      let '(pos, dir) := portal_transform cell_map new_position (direction p) in
      {| radius := radius p; position := pos; direction := dir;
         rect_center := rect_center p |}
    else glide p new_x new_y in
  {| radius := radius p'; position := position p'; direction := direction p';
     rect_center := centered (position p') |}.

(** The two [clamp] assignments that end [move]. *)
Definition keep_in_bounds (p : t) : t :=
  let x := clamp (Vec.x (position p)) (radius p) (fst (size cell_map) - radius p) in
  let y := clamp (Vec.y (position p)) (radius p) (snd (size cell_map) - radius p) in
  set_position p (x, y).

(** [Player.move] *)
Definition move (p : t) (keys : key -> bool) : t :=
  let movement_combo := pressed_combo keys in
  let p1 :=
    if MovementCombo.value movement_combo
    then displace p (candidate p keys movement_combo)
    else p in
  keep_in_bounds p1.

End Move.

End Player.

(** ** The geometry helpers of [cells.py] *)

Module Cells.

(** Modelled from the spec: [cells.split_position] is not among the
    sources.  It splits a position into the cell coordinates and the
    fractional offset in [0,1) x [0,1). *)
Definition split_position (position : Vector2) (square_size : Q)
    : Vector2 * Vector2 :=
  let cx := inject_Z (Qfloor (Vec.x position / square_size)) in
  let cy := inject_Z (Qfloor (Vec.y position / square_size)) in
  ((cx, cy),
   (Vec.x position / square_size - cx, Vec.y position / square_size - cy)).

(** How long ago the ray crossed the edge it entered through on one axis;
    [Inf] when it does not move on that axis. *)
Definition since_entry (offset component : Q) : efloat :=
  if gtb component 0 then Fin (offset / component)
  else if ltb component 0 then Fin ((1 - offset) / Qabs component)
  else Inf.

(** Modelled from the spec: [cells.get_enter_side] is not among the
    sources.  The side the ray is crossing into the cell through, from the
    fractional offset and the sign of the heading on each axis: the side on
    the axis whose edge was crossed last. *)
Definition get_enter_side (cell_pos direction : Vector2) : Direction.t :=
  let tx := since_entry (Vec.x cell_pos) (Vec.x direction) in
  let ty := since_entry (Vec.y cell_pos) (Vec.y direction) in
  match tx, ty with
  | Inf, Inf => Direction.NONE
  | _, _ =>
      if eltb ty tx
      then if gtb (Vec.y direction) 0 then Direction.UP else Direction.DOWN
      else if gtb (Vec.x direction) 0 then Direction.LEFT else Direction.RIGHT
  end.

End Cells.

(** ** Vocabulary of the properties *)

(** The heading with its horizontal (resp. vertical) component flipped. *)
Definition flip_horizontal (d : Vector2) : Vector2 := (Vec.x d * -1, Vec.y d).
Definition flip_vertical (d : Vector2) : Vector2 := (Vec.x d, Vec.y d * -1).

(** The type of the cell one step from [cell] in the direction [side]. *)
Definition neighbour (cell_map : CellMap) (cell : Vector2) (side : Direction.t)
    : option type_ :=
  match ADJACENT_OFFSETS side with
  | Some offset =>
      Some (get_cell cell_map (int (Vec.x cell + fst offset))
                              (int (Vec.y cell + snd offset)))
  | None => None
  end.

Definition horizontal_entry (side : Direction.t) : Prop :=
  side = Direction.LEFT \/ side = Direction.RIGHT.

Definition vertical_entry (side : Direction.t) : Prop :=
  side = Direction.UP \/ side = Direction.DOWN.

(** One component of the heading negated, the other kept. *)
Definition horizontal_flipped (d d' : Vector2) : Prop :=
  Vec.x d' == - Vec.x d /\ Vec.y d' == Vec.y d.

Definition vertical_flipped (d d' : Vector2) : Prop :=
  Vec.x d' == Vec.x d /\ Vec.y d' == - Vec.y d.

(** ** Example maps *)

(** Modelled from the spec: a [CellMap] of 10 x 10 cells of side 10, whose
    [in_bounds] holds of the positions of the map. *)
Definition grid (cells : Z -> Z -> type_)
    (transform : Vector2 -> Vector2 -> Vector2 * Vector2) : CellMap :=
  {| square_size := 10;
     size := (100, 100);
     get_cell := cells;
     in_bounds := fun p =>
       Qle_bool 0 (Vec.x p) && ltb (Vec.x p) 100
       && Qle_bool 0 (Vec.y p) && ltb (Vec.y p) 100;
     portal_transform := transform |}.

(** A map without portals has nothing to transform. *)
Definition no_transform (p d : Vector2) : Vector2 * Vector2 := (p, d).

(** A mirror at (2, 0), reflecting on every side, and a wall below it. *)
Definition mirror_cells (x y : Z) : type_ :=
  if ((x =? 2) && (y =? 0))%Z
  then IsMirror {| sides := Direction.mk true true true true |}
  else if ((x =? 2) && (y =? 1))%Z then IsWall NORMAL
  else False_.

Definition mirror_map : CellMap := grid mirror_cells no_transform.

(** A portal at (3, 0) whose LEFT side is linked to the RIGHT side of the
    cell (6, 0), and a wall at (9, 0). *)
Definition portal_X : Portal :=
  {| active := true; links_up := None; links_down := None;
     links_left := Some ((6, 0)%Z, Direction.RIGHT); links_right := None |}.

Definition portal_cells (x y : Z) : type_ :=
  if ((x =? 3) && (y =? 0))%Z then IsPortal portal_X
  else if ((x =? 9) && (y =? 0))%Z then IsWall NORMAL
  else False_.

(** Modelled from the spec: the portal transform of a map whose links all
    lead to the RIGHT side of the cell (6, 0), from a LEFT side: the
    position on the edge x = 70 of that side, the heading kept. *)
Definition to_right_of_6 (p d : Vector2) : Vector2 * Vector2 :=
  ((70, Vec.y p), d).

Definition portal_map : CellMap := grid portal_cells to_right_of_6.

(** The contract of [split_position]: the fractional offset lies in the
    unit square. *)
Definition offsets_in_unit_square
    (split_position : Vector2 -> Q -> Vector2 * Vector2) (square_size : Q)
    : Prop :=
  forall p : Vector2,
    let cell_pos := snd (split_position p square_size) in
    (0 <= Vec.x cell_pos < 1) /\ (0 <= Vec.y cell_pos < 1).

(** A wall at (3, 0) in an otherwise empty map. *)
Definition wall_cells (x y : Z) : type_ :=
  if ((x =? 3) && (y =? 0))%Z then IsWall NORMAL else False_.

Definition wall_map : CellMap := grid wall_cells no_transform.

(** The heading a reflection makes of the heading [d], in the mirror cell
    [cell] entered through [enter_side]: that of [mirror_reflect]. *)
Definition reflected (cell_map : CellMap) (cell : Vector2)
    (enter_side : Direction.t) (d : Vector2) : outcome Vector2 :=
  r' <- mirror_reflect cell_map (new_ray d 0 (0, 0)) cell enter_side ;;
  Ok (direction r').

(** How the ray goes on after the segment [s], travelled with the heading
    [h]: with the heading [h'], from [start'].  After a mirror, from the end
    of [s], with the heading the reflection makes of [h] in the cell of that
    end; after a portal, with the heading of the portal transform of the end
    of [s] and of [h], from the position of that transform moved by 0.05
    along the new heading. *)
Inductive turns (cell_map : CellMap)
    (split_position : Vector2 -> Q -> Vector2 * Vector2)
    (get_enter_side : Vector2 -> Vector2 -> Direction.t)
    (s : RaySegment) (h h' start' : Vector2) : Prop :=
| turn_mirror (m : Mirror) :
    end_type s = IsMirror m ->
    start' = end_pos s ->
    reflected cell_map
      (fst (split_position (end_pos s) (square_size cell_map)))
      (get_enter_side
         (snd (split_position (end_pos s) (square_size cell_map))) h)
      h = Ok h' ->
    turns cell_map split_position get_enter_side s h h' start'
| turn_portal (p : Portal) :
    end_type s = IsPortal p ->
    h' = snd (portal_transform cell_map (end_pos s) h) ->
    start' = (fst (fst (portal_transform cell_map (end_pos s) h))
                + fst h' * (5 # 100),
              snd (fst (portal_transform cell_map (end_pos s) h))
                + snd h' * (5 # 100)) ->
    turns cell_map split_position get_enter_side s h h' start'.

(** Segments and the headings they were travelled with: each segment but
    the last turns into the next one. *)
Definition routed (cell_map : CellMap)
    (split_position : Vector2 -> Q -> Vector2 * Vector2)
    (get_enter_side : Vector2 -> Vector2 -> Direction.t)
    (segs : list RaySegment) (hs : list Vector2) : Prop :=
  forall (i : nat) (s s' : RaySegment) (h h' : Vector2),
    nth_error segs i = Some s -> nth_error segs (S i) = Some s' ->
    nth_error hs i = Some h -> nth_error hs (S i) = Some h' ->
    turns cell_map split_position get_enter_side s h h' (start_pos s').

(** The invariant of the ray during a cast that began with the heading
    [h0]: its closed segments and the segment being built are routed. *)
Definition ray_routed (cell_map : CellMap)
    (split_position : Vector2 -> Q -> Vector2 * Vector2)
    (get_enter_side : Vector2 -> Vector2 -> Direction.t)
    (h0 : Vector2) (r : CastingRay) : Prop :=
  exists hs : list Vector2,
    length hs = length (segments r)
    /\ nth_error (hs ++ [direction r]) 0 = Some h0
    /\ routed cell_map split_position get_enter_side
         (segments r ++ [current_segment r False_]) (hs ++ [direction r]).

(** What a completed cast leaves: segments routed from the heading [h0]. *)
Definition route_from (cell_map : CellMap)
    (split_position : Vector2 -> Q -> Vector2 * Vector2)
    (get_enter_side : Vector2 -> Vector2 -> Direction.t)
    (h0 : Vector2) (r : CastingRay) : Prop :=
  exists hs : list Vector2,
    length hs = length (segments r)
    /\ nth_error hs 0 = Some h0
    /\ routed cell_map split_position get_enter_side (segments r) hs.

(** No distance of the ray is negative, and the total distance is within
    the visible distance. *)
Definition measured (r : CastingRay) : Prop :=
  Forall (fun s => 0 <= distance s) (segments r)
  /\ 0 <= segment_distance r
  /\ total_distance r <= visible_distance r.

(** A portal transform that keeps the magnitude of the heading. *)
Definition keeps_magnitude (cell_map : CellMap) : Prop :=
  forall p d : Vector2,
    Vec.magnitude_squared (snd (portal_transform cell_map p d))
    == Vec.magnitude_squared d.

(** Two portals side by side, at (6, 0) and (7, 0), and a third at (3, 0):
    the LEFT sides of the portals at (3, 0) and (7, 0) are linked to the
    RIGHT side of the cell (6, 0), which is the LEFT side of (7, 0). *)
Definition loop_cells (x y : Z) : type_ :=
  if ((x =? 3) && (y =? 0))%Z then IsPortal portal_X
  else if ((x =? 6) && (y =? 0))%Z then IsPortal new_portal
  else if ((x =? 7) && (y =? 0))%Z then IsPortal portal_X
  else False_.

Definition loop_map : CellMap := grid loop_cells to_right_of_6.

(** The rays of [loop_map] that have just left the RIGHT side of (6, 0),
    heading right. *)
Definition in_loop (pos heading : Vector2) : Prop :=
  heading = (1, 0) /\ Vec.x pos = 70 + 1 * (5 # 100) /\ 0 <= Vec.y pos < 10.

(** ** [Portal.get_subrect_indices] *)

(** [link is not None] *)
Definition is_set (l : option link) : bool :=
  match l with
  | Some _ => true
  | None => false
  end.

(** [[direction for direction, link in self.links.items() if link is not None]],
    in the order of the keys of [links]: UP, DOWN, LEFT, RIGHT. *)
Definition linked_directions (p : Portal) : list Direction.t :=
  (if is_set (links_up p) then [Direction.UP] else [])
  ++ (if is_set (links_down p) then [Direction.DOWN] else [])
  ++ (if is_set (links_left p) then [Direction.LEFT] else [])
  ++ (if is_set (links_right p) then [Direction.RIGHT] else []).

(** [reduce(lambda a, b: a | b, directions)]: [None] is the [TypeError] of
    an empty sequence without initial value. *)
Definition reduce_or (directions : list Direction.t) : option Direction.t :=
  match directions with
  | [] => None
  | a :: l => Some (fold_left Direction.or_ l a)
  end.

(** [Portal.get_subrect_indices], over the [get_subrect_indices] of
    [Direction], which is not among the sources. *)
Definition get_subrect_indices (indices : Direction.t -> list Z) (p : Portal)
    : option (list Z) :=
  option_map indices (reduce_or (linked_directions p)).


(** Walls at (2, 1) and (1, 0), around the empty corner cell (2, 0). *)
Definition corner_cells (x y : Z) : type_ :=
  if ((x =? 2) && (y =? 1))%Z then IsWall NORMAL
  else if ((x =? 1) && (y =? 0))%Z then IsWall NORMAL
  else False_.

Definition corner_map : CellMap := grid corner_cells no_transform.

(** [pygame.Vector2.rotate] for the multiples of a right angle, the other
    angles being left alone: their sines are no rationals. *)
Definition rotate_right_angles (v : Vector2) (angle : Q) : Vector2 :=
  if Qeq_bool angle 90 then (- Vec.y v, Vec.x v)
  else if Qeq_bool angle 180 then (- Vec.x v, - Vec.y v)
  else if Qeq_bool angle 270 then (Vec.y v, - Vec.x v)
  else v.

(** A stand-in for what [pygame.Rect] makes of a centre: the nearest
    integers. *)
Definition rounded (v : Vector2) : Z * Z :=
  (Qfloor (Vec.x v + (1 # 2)), Qfloor (Vec.y v + (1 # 2))).

(** The keys held down: [K_w] alone. *)
Definition forward_key (k : key) : bool :=
  match k with
  | K_w => true
  | _ => false
  end.

(** A player of radius 2 at (29, 5), facing right. *)
Definition player_at_portal : Player.t :=
  {| Player.radius := 2; Player.position := (29 + (1 # 2), 5);
     Player.direction := (1, 0); Player.rect_center := (30, 5)%Z |}.

(** A player of radius 2 in the cell (1, 1), near its corner. *)
Definition player_at_corner : Player.t :=
  {| Player.radius := 2; Player.position := (19 + (1 # 2), 10 + (1 # 2));
     Player.direction := (1, 0); Player.rect_center := (20, 11)%Z |}.

(** ** [Raycaster.cast_ray] and [Raycaster.cast_rays] *)

(** What [cast_ray] returns: [((total_distance, segments), points)]. *)
Definition ray_result : Type := ((Q * list RaySegment) * list (Q * Q))%type.

(** [ray_data[angle] = value] on a dict with float keys, kept in insertion
    order: the value of an equal key is replaced where it stands. *)
Fixpoint dict_set (data : list (Q * ray_result)) (angle : Q)
    (value : ray_result) : list (Q * ray_result) :=
  match data with
  | [] => [(angle, value)]
  | (k, v) :: data' =>
      if Qeq_bool k angle then (k, value) :: data'
      else (k, v) :: dict_set data' angle value
  end.

Record Raycaster : Type := {
  player : Player.t;
  fov : Q;
  ray_count : Z;
  ray_data : list (Q * ray_result) }.

Definition set_ray_data (rc : Raycaster) (data : list (Q * ray_result))
    : Raycaster :=
  {| player := player rc; fov := fov rc; ray_count := ray_count rc;
     ray_data := data |}.

Section Fan.

Variable cell_map : CellMap.
Variable split_position : Vector2 -> Q -> Vector2 * Vector2.
Variable get_enter_side : Vector2 -> Vector2 -> Direction.t.

(** [pygame.Vector2.rotate], by an angle in degrees. *)
Variable rotate : Vector2 -> Q -> Vector2.

(** [cast_ray] *)
Definition cast_ray (fuel : nat) (rc : Raycaster) (direction : Vector2)
    (visible_distance : Q) : outcome ray_result :=
  ray <- cast cell_map split_position get_enter_side fuel
           (new_ray direction visible_distance (Player.position (player rc))) ;;
  Ok ((total_distance ray, segments ray), points ray).

(** The loop of [cast_rays] over [zip(angles, directions)]: the raycaster
    as the loop leaves it, and how the loop ended. *)
Fixpoint fill_ray_data (fuel : nat) (rc : Raycaster)
    (rays : list (Q * Vector2)) (visible_distance : Q)
    : Raycaster * outcome unit :=
  match rays with
  | [] => (rc, Ok tt)
  | (angle, direction) :: rays' =>
      match cast_ray fuel rc direction visible_distance with
      | Ok value =>
          fill_ray_data fuel
            (set_ray_data rc (dict_set (ray_data rc) angle value))
            rays' visible_distance
      | Raise e => (rc, Raise e)
      | Timeout => (rc, Timeout)
      end
  end.

(** [cast_rays]: the raycaster after the call, and how the call ended. *)
Definition cast_rays (fuel : nat) (rc : Raycaster) (angle_center : Q)
    (visible_distance : Q) : Raycaster * outcome unit :=
  match distribute_angles (fov rc) (ray_count rc) angle_center with
  | Ok angles =>
      let directions := map (fun angle => rotate (1, 0) angle) angles in
      fill_ray_data fuel (set_ray_data rc []) (combine angles directions)
        visible_distance
  | Raise e => (rc, Raise e)
  | Timeout => (rc, Timeout)
  end.

End Fan.

(** A raycaster of three rays over half a turn, for a player at (55, 55),
    and one without any ray. *)
Definition player_in_the_open : Player.t :=
  {| Player.radius := 2; Player.position := (55, 55);
     Player.direction := (1, 0); Player.rect_center := (55, 55)%Z |}.

Definition three_rays : Raycaster :=
  {| player := player_in_the_open; fov := 180; ray_count := 3;
     ray_data := [] |}.

Definition no_rays : Raycaster :=
  {| player := player_in_the_open; fov := 180; ray_count := 0;
     ray_data := [ (0, ((0, []), [])) ] |}.

(** The point of the trace for a position. *)
Definition point_of (p : Vector2) : Q * Q := (Vec.x p, Vec.y p).

(** The trace is empty and the ray is at [start], or the trace starts with
    [start]. *)
Definition traced_from (start : Vector2) (r : CastingRay) : Prop :=
  (points r = [] /\ end_position r = start)
  \/ exists l, points r = point_of start :: l.

(** A raycaster of three rays over a full turn. *)
Definition full_turn : Raycaster :=
  {| player := player_in_the_open; fov := 360; ray_count := 3;
     ray_data := [] |}.

(** A step cut by 1%, [k] times. *)
Definition cut (step : Q) (k : nat) : Q :=
  Nat.iter k (fun adjusted => adjusted * 0.99) step.

(** A wall at (0, 1) in an otherwise empty map, and a player in the
    cell (0, 0), near its lower right corner. *)
Definition ledge_cells (x y : Z) : type_ :=
  if ((x =? 0) && (y =? 1))%Z then IsWall NORMAL else False_.

Definition ledge_map : CellMap := grid ledge_cells no_transform.

Definition player_on_ledge : Player.t :=
  {| Player.radius := 2; Player.position := (9 + (1 # 2), 9 + (1 # 2));
     Player.direction := (1, 0); Player.rect_center := (10, 10)%Z |}.

(** Whether the cell of the position (x, y) is occupied: [type_] is true. *)
Definition occupied (cell_map : CellMap) (x y : Q) : bool :=
  truthy (Player.type_at cell_map (Player.cell_of cell_map x y)).


(** The loop of [cast] is still running after any number of passes. *)
Definition never_ends (cell_map : CellMap)
    (split_position : Vector2 -> Q -> Vector2 * Vector2)
    (get_enter_side : Vector2 -> Vector2 -> Direction.t)
    (r : CastingRay) : Prop :=
  forall fuel : nat,
    cast cell_map split_position get_enter_side fuel r = Timeout.

(** No two elements of the list are equal. *)
Fixpoint distinct (l : list Q) : bool :=
  match l with
  | [] => true
  | a :: l' => forallb (fun b => negb (Qeq_bool a b)) l' && distinct l'
  end.

(** ** Binary64

    Where rounding decides, the arithmetic is that of Python's [float], an
    IEEE 754 binary64 number: Rocq's primitive floats.  [step_to_edge] and
    [distribute_angles] are given here as they compute on such numbers. *)

Module Binary64.

Local Open Scope float_scope.

(** [a / b] on floats, which raises [ZeroDivisionError] when [b] is a
    zero of either sign. *)
Definition truediv (a b : float) : outcome float :=
  if b =? 0 then Raise ZeroDivisionError else Ok (a / b).

(** [float(k)] of an int, [0 <= k < 2^63]. *)
Definition of_int (k : Z) : float := of_uint63 (Uint63.of_Z k).

(** [a / k] for an int [k], which raises when [k] is 0. *)
Definition truediv_int (a : float) (k : Z) : outcome float :=
  if (k =? 0)%Z then Raise ZeroDivisionError else Ok (a / of_int k).

(** Python's [min(a, b)]: the first argument unless the second is smaller. *)
Definition min (a b : float) : float := if b <? a then b else a.

(** The literal [0.001]. *)
Definition NUDGE : float := 0x1.0624dd2f1a9fcp-10.

(** [CastingRay.step_to_edge] *)
Definition step_to_edge (position direction : float * float)
    : outcome float :=
  step_x <-
    (if 0 <? fst direction
     then truediv (1 - fst position) (fst direction)
     else if fst direction <? 0
          then q <- truediv (fst position) (abs (fst direction)) ;;
               Ok (q + NUDGE)
          else Ok infinity) ;;
  step_y <-
    (if 0 <? snd direction
     then truediv (1 - snd position) (snd direction)
     else if snd direction <? 0
          then q <- truediv (snd position) (abs (snd direction)) ;;
               Ok (q + NUDGE)
          else Ok infinity) ;;
  Ok (min step_x step_y).

(** C's [fmod(a, 360)]: the remainder of [|a|] by 360 with the sign of [a],
    which is a binary64 number and is computed without rounding. *)
Definition fmod_360 (a : float) : float :=
  match Prim2SF a with
  | S754_finite s m e =>
      let r := if (0 <=? e)%Z then ((Zpos m * 2 ^ e) mod 360)%Z
               else (Zpos m mod (360 * 2 ^ (- e)))%Z in
      let f := Z.ldexp (of_int r) (Z.min e 0) in
      if s then - f else f
  | S754_zero _ => a
  | S754_infinity _ | S754_nan => nan
  end.

(** [a % 360] on floats: [fmod], then 360 is added to a negative remainder;
    a remainder of zero is [+0.0]. *)
Definition mod_360 (a : float) : float :=
  let m := fmod_360 a in
  if m =? 0 then 0
  else if m <? 0 then m + 360 else m.

(** [range(n)] *)
Definition range (n : Z) : list Z := map Z.of_nat (seq 0 (Z.to_nat n)).

Section Angles.

(** Python's [sorted]. *)
Variable sorted : list float -> list float.

(** [statistics.median] *)
Definition median (data : list float) : outcome float :=
  let data := sorted data in
  let n := length data in
  if Nat.eqb n 0 then Raise StatisticsError
  else if Nat.eqb (n mod 2) 1 then Ok (nth (n / 2) data 0)
  else
    let i := (n / 2)%nat in
    Ok ((nth (i - 1) data 0 + nth i data 0) / 2).

(** [Raycaster.distribute_angles], for a raycaster with the given [fov] and
    [ray_count]. *)
Definition distribute_angles (fov : float) (ray_count : Z) (center : float)
    : outcome (list float) :=
  interval <-
    (if (ray_count >? 1)%Z then truediv_int fov (ray_count - 1) else Ok 1) ;;
  let angles := map (fun k => of_int k * interval) (range ray_count) in
  median <- median angles ;;
  Ok (map (fun angle => mod_360 (angle + (center - median))) angles).

End Angles.

(** A stand-in for [sorted] in the examples: a stable insertion sort. *)
Fixpoint insert_sorted (x : float) (l : list float) : list float :=
  match l with
  | [] => [x]
  | y :: l' => if x <=? y then x :: l else y :: insert_sorted x l'
  end.


End Binary64.

(** * Properties *)

(** ** Comparisons *)

Lemma ltb_lt (x y : Q) : ltb x y = true <-> x < y.
  Proof.
    unfold ltb. rewrite negb_true_iff, <- not_true_iff_false, Qle_bool_iff.
    split; [apply Qnot_le_lt | apply Qlt_not_le].
  Qed.

Lemma ltb_ge (x y : Q) : ltb x y = false <-> y <= x.
  Proof.
    unfold ltb. rewrite negb_false_iff. apply Qle_bool_iff.
  Qed.

(** ** [step_to_edge] *)

Lemma axis_distance_total (offset component : Q) :
  axis_distance offset component
    (if gtb component 0 then Fin ((1 - offset) / component)
     else if ltb component 0 then Fin (offset / Qabs component + 0.001)
     else Inf).
Proof.
  unfold gtb.
  destruct (ltb 0 component) eqn:Hpos.
  - apply axis_positive. now apply ltb_lt.
  - destruct (ltb component 0) eqn:Hneg.
    + apply axis_negative. now apply ltb_lt.
    + apply axis_zero. apply ltb_ge in Hpos, Hneg. now apply Qle_antisym.
Qed.

Lemma eltb_irrefl (a : efloat) : eltb a a = false.
Proof.
  destruct a as [q|]; simpl; trivial.
  apply ltb_ge, Qle_refl.
Qed.

Lemma eltb_asym (a b : efloat) : eltb a b = true -> eltb b a = false.
Proof.
  destruct a as [x|], b as [y|]; simpl; try discriminate; trivial.
  rewrite ltb_lt, ltb_ge. apply Qlt_le_weak.
Qed.

Lemma min_is_min (a b : efloat) : is_min a b (min a b).
Proof.
  unfold is_min, min.
  destruct (eltb b a) eqn:Hba.
  - repeat split; auto using eltb_irrefl, eltb_asym.
  - repeat split; auto using eltb_irrefl.
Qed.

Lemma step_to_edge_axes (x y dx dy : Q) :
  exists sx sy : efloat,
    axis_distance x dx sx /\ axis_distance y dy sy /\
    step_to_edge (x, y) (dx, dy) = min sx sy.
Proof.
  eexists; eexists.
  split; [apply axis_distance_total|].
  split; [apply axis_distance_total|].
  reflexivity.
Qed.

(** C4. [step_to_edge] returns the minimum over the two axes of the per-axis
    edge distance: infinity for a zero heading component, (1 - offset) /
    component for a positive one, offset / |component| + 0.001 for a
    negative one. *)
Theorem step_to_edge_min_of_axes (x y dx dy : Q) :
  exists sx sy : efloat,
    axis_distance x dx sx /\ axis_distance y dy sy /\
    is_min sx sy (step_to_edge (x, y) (dx, dy)).
Proof.
  destruct (step_to_edge_axes x y dx dy) as (sx & sy & Hsx & Hsy & ->).
  exists sx, sy. auto using min_is_min.
Qed.

Lemma axis_distance_positive (offset component : Q) (s : efloat) :
  0 <= offset < 1 -> axis_distance offset component s ->
  match s with
  | Fin q => 0 < q
  | Inf => component == 0
  end.
Proof.
  intros [Hlo Hhi] Hs.
  destruct Hs as [Hz | Hpos | Hneg]; trivial.
  - apply Qlt_shift_div_l; trivial. lra.
  - assert (Habs : 0 < Qabs component).
    { rewrite Qabs_neg by lra. lra. }
    assert (0 <= offset / Qabs component).
    { apply Qle_shift_div_l; trivial. lra. }
    lra.
Qed.

Lemma step_to_edge_positive (x y dx dy : Q) :
  0 <= x < 1 -> 0 <= y < 1 ->
  match step_to_edge (x, y) (dx, dy) with
  | Fin q => 0 < q
  | Inf => dx == 0 /\ dy == 0
  end.
Proof.
  intros Hx Hy.
  destruct (step_to_edge_axes x y dx dy) as (sx & sy & Hsx & Hsy & ->).
  apply (axis_distance_positive _ _ _ Hx) in Hsx.
  apply (axis_distance_positive _ _ _ Hy) in Hsy.
  unfold min. destruct sx, sy; simpl; auto.
  destruct (ltb q0 q); auto.
Qed.

(** ** Mirror reflection *)

(** C5. At a reflection with entry side [enter_side]: when the neighbour of
    the mirror's cell on that side is occupied, a LEFT/RIGHT entry flips the
    vertical component of the heading and an UP/DOWN entry the horizontal
    one; when it is unoccupied, a LEFT/RIGHT entry flips the horizontal
    component and an UP/DOWN entry the vertical one.  The other component,
    and the rest of the ray, stay as they are. *)
Theorem mirror_reflect_rule (cell_map : CellMap) (r : CastingRay)
    (cell : Vector2) (enter_side : Direction.t) (adjacent : type_) :
  neighbour cell_map cell enter_side = Some adjacent ->
  exists r',
    mirror_reflect cell_map r cell enter_side = Ok r'
    /\ (truthy adjacent = true ->
        (horizontal_entry enter_side ->
           direction r' = (fst (direction r), snd (direction r) * -1))
        /\ (vertical_entry enter_side ->
           direction r' = (fst (direction r) * -1, snd (direction r))))
    /\ (truthy adjacent = false ->
        (horizontal_entry enter_side ->
           direction r' = (fst (direction r) * -1, snd (direction r)))
        /\ (vertical_entry enter_side ->
           direction r' = (fst (direction r), snd (direction r) * -1)))
    /\ end_position r' = end_position r
    /\ start_position r' = start_position r
    /\ segments r' = segments r
    /\ total_distance r' = total_distance r.
Proof.
  unfold neighbour, mirror_reflect.
  destruct (ADJACENT_OFFSETS enter_side) as [offset|] eqn:Hoff; [|discriminate].
  unfold Vec.add, Vec.x, Vec.y; cbn [fst snd].
  intros [= <-].
  assert (Hside : horizontal_entry enter_side \/ vertical_entry enter_side).
  { revert Hoff. unfold ADJACENT_OFFSETS, horizontal_entry, vertical_entry.
    destruct (Direction.eqb enter_side Direction.UP) eqn:H1.
    { destruct enter_side as [[] [] [] []]; try discriminate H1. auto. }
    destruct (Direction.eqb enter_side Direction.RIGHT) eqn:H2.
    { destruct enter_side as [[] [] [] []]; try discriminate H2. auto. }
    destruct (Direction.eqb enter_side Direction.DOWN) eqn:H3.
    { destruct enter_side as [[] [] [] []]; try discriminate H3. auto. }
    destruct (Direction.eqb enter_side Direction.LEFT) eqn:H4.
    { destruct enter_side as [[] [] [] []]; try discriminate H4. auto. }
    discriminate. }
  destruct (truthy _);
    destruct Hside as [[-> | ->] | [-> | ->]]; cbn;
    (eexists; split; [reflexivity|]);
    (split; [intros Ht; try discriminate Ht;
             split; intros [He | He]; try discriminate He; reflexivity|]);
    (split; [intros Ht; try discriminate Ht;
             split; intros [He | He]; try discriminate He; reflexivity|]);
    repeat split; reflexivity.
Qed.

Lemma mirror_reflect_rule_witness :
  exists r',
    mirror_reflect mirror_map (new_ray (3 # 5, -4 # 5) 5 (25, 15)) (2, 0)
      Direction.DOWN = Ok r'
    /\ direction r' = ((3 # 5) * -1, -4 # 5)
    /\ end_position r' = (25, 15).
Proof.
  destruct (mirror_reflect_rule mirror_map (new_ray (3 # 5, -4 # 5) 5 (25, 15))
              (2, 0) Direction.DOWN (IsWall NORMAL) eq_refl)
    as (r' & Hr & Hocc & _ & Hend & _).
  exists r'. split; [exact Hr|]. split; [|exact Hend].
  apply Hocc; [reflexivity | right; reflexivity].
Defined.

Lemma ADJACENT_OFFSETS_cardinal (side : Direction.t) (offset : Q * Q) :
  ADJACENT_OFFSETS side = Some offset ->
  Direction.in2 side Direction.LEFT Direction.RIGHT = true
  \/ Direction.in2 side Direction.UP Direction.DOWN = true.
Proof.
  unfold ADJACENT_OFFSETS, Direction.in2.
  destruct (Direction.eqb side Direction.UP); [intros _; now right|].
  destruct (Direction.eqb side Direction.RIGHT).
  { intros _; left. apply orb_true_r. }
  destruct (Direction.eqb side Direction.DOWN); [intros _; now right|].
  destruct (Direction.eqb side Direction.LEFT); [intros _; now left|].
  discriminate.
Qed.

Lemma mirror_reflect_flips (cell_map : CellMap) (r r' : CastingRay)
    (cell : Vector2) (enter_side : Direction.t) :
  mirror_reflect cell_map r cell enter_side = Ok r' ->
  r' = set_direction r (flip_horizontal (direction r))
  \/ r' = set_direction r (flip_vertical (direction r)).
Proof.
  unfold mirror_reflect.
  destruct (ADJACENT_OFFSETS enter_side) as [offset|] eqn:Hoff; [|discriminate].
  apply ADJACENT_OFFSETS_cardinal in Hoff.
  destruct (truthy _);
    destruct (Direction.in2 enter_side Direction.LEFT Direction.RIGHT);
    try (intros [= <-]; auto; fail);
    destruct (Direction.in2 enter_side Direction.UP Direction.DOWN);
    try (intros [= <-]; auto; fail);
    destruct Hoff; discriminate.
Qed.

(** C6. A reflection keeps the magnitude of the heading, and negates
    exactly one of its two components. *)
Theorem mirror_reflect_preserves_magnitude (cell_map : CellMap)
    (r r' : CastingRay) (cell : Vector2) (enter_side : Direction.t) :
  ~ (Vec.x (direction r) == 0 /\ Vec.y (direction r) == 0) ->
  mirror_reflect cell_map r cell enter_side = Ok r' ->
  Vec.magnitude_squared (direction r') == Vec.magnitude_squared (direction r)
  /\ ((horizontal_flipped (direction r) (direction r')
       /\ ~ vertical_flipped (direction r) (direction r'))
      \/ (vertical_flipped (direction r) (direction r')
          /\ ~ horizontal_flipped (direction r) (direction r'))).
Proof.
  intros Hnz Hr.
  apply mirror_reflect_flips in Hr.
  destruct (direction r) as [dx dy] eqn:Hd.
  unfold Vec.magnitude_squared, horizontal_flipped, vertical_flipped.
  destruct Hr as [-> | ->]; simpl direction;
    unfold flip_horizontal, flip_vertical, Vec.x, Vec.y in *;
    cbn [fst snd] in *.
  - split; [ring|]. left.
    split; [split; ring|].
    intros [Hx Hy]. apply Hnz. split; lra.
  - split; [ring|]. right.
    split; [split; ring|].
    intros [Hx Hy]. apply Hnz. split; lra.
Qed.

Lemma mirror_reflect_preserves_magnitude_witness :
  let r := new_ray (3 # 5, -4 # 5) 5 (25, 15) in
  let r' := set_direction r (flip_horizontal (3 # 5, -4 # 5)) in
  Vec.magnitude_squared (direction r') == Vec.magnitude_squared (direction r)
  /\ ((horizontal_flipped (direction r) (direction r')
       /\ ~ vertical_flipped (direction r) (direction r'))
      \/ (vertical_flipped (direction r) (direction r')
          /\ ~ horizontal_flipped (direction r) (direction r'))).
Proof.
  intros r r'.
  apply (mirror_reflect_preserves_magnitude mirror_map r r' (2, 0)
           Direction.DOWN).
  - intros [H _]. discriminate H.
  - reflexivity.
Defined.

(** ** Portals *)

Section Portal_pass.

Variable cell_map : CellMap.
Variable split_position : Vector2 -> Q -> Vector2 * Vector2.
Variable get_enter_side : Vector2 -> Vector2 -> Direction.t.

(** C7. A pass of the ray march that lands in a Portal cell: with the link
    of the entry side unset, the ray closes its segment tagged as a NORMAL
    wall and terminates; otherwise it closes the segment tagged with the
    portal, takes the position and heading of the portal transform, moves
    the position by 0.05 along the new heading, starts the new segment at
    that point with its end on it, and marches on without an edge step. *)
Theorem portal_pass (fuel : nat) (r : CastingRay) (cell cell_pos : Vector2)
    (p : Portal) :
  split_position (end_position r) (square_size cell_map) = (cell, cell_pos) ->
  get_cell cell_map (int (Vec.x cell)) (int (Vec.y cell)) = IsPortal p ->
  let enter_side := get_enter_side cell_pos (direction r) in
  (links_get p enter_side = Some None ->
     exists r',
       cast_pass cell_map split_position get_enter_side fuel r = Ok (Stop r')
       /\ cast cell_map split_position get_enter_side (S fuel) r = Ok r'
       /\ segments r'
          = segments r
            ++ [ {| start_pos := start_position r; end_pos := end_position r;
                    distance := segment_distance r;
                    end_type := IsWall NORMAL |} ])
  /\ (forall l, links_get p enter_side = Some (Some l) ->
     exists r',
       cast_pass cell_map split_position get_enter_side fuel r = Ok (Again r')
       /\ cast cell_map split_position get_enter_side (S fuel) r = cast cell_map split_position get_enter_side fuel r'
       /\ segments r'
          = segments r
            ++ [ {| start_pos := start_position r; end_pos := end_position r;
                    distance := segment_distance r;
                    end_type := IsPortal p |} ]
       /\ (let new := portal_transform cell_map (end_position r) (direction r) in
           direction r' = snd new
           /\ start_position r' = Vec.add (fst new) (Vec.scale (snd new) (5 # 100))
           /\ end_position r' = start_position r')
       /\ total_distance r' = total_distance r
       /\ segment_distance r' = 0).
Proof.
  intros Hsplit Hcell enter_side.
  assert (Hpass : forall fuel',
    cast_pass cell_map split_position get_enter_side fuel' r
    = ar <- handle_type cell_map (add_point r) (IsPortal p) enter_side cell ;;
      match ar with
      | (Break, r1) => Ok (Stop r1)
      | (Continue, r1) => Ok (Again r1)
      | (Proceed, r1) =>
          ar' <- take_step cell_map fuel' r1 cell_pos ;;
          match ar' with
          | (Break, r2) => Ok (Stop r2)
          | (_, r2) => Ok (Again r2)
          end
      end).
  { intros fuel'. unfold cast_pass. simpl end_position.
    rewrite Hsplit, Hcell. reflexivity. }
  split.
  - intros Hlink.
    exists (add_segment_and_point (add_point r) (IsWall NORMAL)).
    cbn [cast]. rewrite Hpass. cbn [handle_type].
    rewrite Hlink. repeat split; reflexivity.
  - intros l Hlink.
    exists (teleport cell_map (add_segment_and_point (add_point r) (IsPortal p))).
    cbn [cast]. rewrite Hpass. cbn [handle_type].
    rewrite Hlink. unfold teleport. simpl.
    destruct (portal_transform cell_map (end_position r) (direction r))
      as [pos dir].
    repeat split; reflexivity.
Qed.

End Portal_pass.

Lemma portal_pass_witness :
  let r := new_ray (1, 0) 20 (30, 5) in
  exists r',
    cast_pass portal_map Cells.split_position Cells.get_enter_side 0 r
    = Ok (Again r')
    /\ cast portal_map Cells.split_position Cells.get_enter_side 1 r
       = cast portal_map Cells.split_position Cells.get_enter_side 0 r'
    /\ segments r'
       = segments r
         ++ [ {| start_pos := start_position r; end_pos := end_position r;
                 distance := segment_distance r;
                 end_type := IsPortal portal_X |} ]
    /\ (let new := portal_transform portal_map (end_position r) (direction r) in
        direction r' = snd new
        /\ start_position r' = Vec.add (fst new) (Vec.scale (snd new) (5 # 100))
        /\ end_position r' = start_position r')
    /\ total_distance r' = total_distance r
    /\ segment_distance r' = 0.
Proof.
  intros r.
  refine (proj2 (portal_pass portal_map Cells.split_position
                   Cells.get_enter_side 0 r
                   (fst (Cells.split_position (30, 5) 10))
                   (snd (Cells.split_position (30, 5) 10))
                   portal_X _ _) ((6, 0)%Z, Direction.RIGHT) _).
  - reflexivity.
  - vm_compute. reflexivity.
  - vm_compute. reflexivity.
Defined.

(** ** The passes of [cast] *)

Section Passes.

Variable cell_map : CellMap.
Variable split_position : Vector2 -> Q -> Vector2 * Vector2.
Variable get_enter_side : Vector2 -> Vector2 -> Direction.t.

Lemma handle_type_cases (r r1 : CastingRay) (cell_type : type_)
    (enter_side : Direction.t) (cell : Vector2) (a : action) :
  handle_type cell_map r cell_type enter_side cell = Ok (a, r1) ->
  (a = Break /\ r1 = add_segment_and_point r (IsWall NORMAL))
  \/ (a = Continue /\ exists p, cell_type = IsPortal p
        /\ r1 = teleport cell_map (add_segment_and_point r cell_type))
  \/ (a = Proceed /\ r1 = r)
  \/ (a = Proceed /\ exists m, cell_type = IsMirror m
        /\ mirror_reflect cell_map
             (restart_segment (add_segment_and_point r cell_type))
             cell enter_side = Ok r1).
Proof.
  unfold handle_type.
  destruct cell_type as [|[|]|m|p].
  - intros [= <- <-]. auto.
  - intros [= <- <-]. auto.
  - intros [= <- <-]. auto.
  - destruct (negb _).
    + intros [= <- <-]. auto.
    + destruct (mirror_reflect _ _ _ _) as [r'| |] eqn:Hm; try discriminate.
      intros [= <- <-]. right; right; right. eauto.
  - destruct (links_get p enter_side) as [[l|]|]; try discriminate.
    + intros [= <- <-]. right; left. eauto.
    + intros [= <- <-]. auto.
Qed.

Lemma take_step_cases (fuel : nat) (r r2 : CastingRay) (cell_pos : Vector2)
    (a : action) :
  take_step cell_map fuel r cell_pos = Ok (a, r2) ->
  (a = Break
   /\ r2 = finish cell_map r (visible_distance r - total_distance r) False_)
  \/ (exists s : Q,
        step_to_edge (Vec.x cell_pos, Vec.y cell_pos)
                     (Vec.x (direction r), Vec.y (direction r)) = Fin s
        /\ total_distance r + s <= visible_distance r
        /\ ((a = Break /\ exists adjusted,
               shrink cell_map fuel r s = Ok adjusted
               /\ r2 = finish cell_map r adjusted (IsWall BORDER))
            \/ (a = Proceed
                /\ r2 = advance r
                     (Vec.add (end_position r) (position_step cell_map r s)) s))).
Proof.
  unfold take_step.
  destruct (step_to_edge _ _) as [s|].
  - destruct (gtb (total_distance r + s) (visible_distance r)) eqn:Hgt.
    + simpl. intros [= <- <-]. auto.
    + apply ltb_ge in Hgt. simpl.
      destruct (negb _).
      * destruct (shrink cell_map fuel r s) as [adjusted| |] eqn:Hs;
          try discriminate.
        intros [= <- <-]. right. exists s. eauto 8.
      * intros [= <- <-]. right. exists s. auto.
  - intros [= <- <-]. auto.
Qed.

Lemma shrink_bounds (fuel : nat) (r : CastingRay) (s adjusted : Q) :
  0 <= s -> shrink cell_map fuel r s = Ok adjusted ->
  0 <= adjusted <= s.
Proof.
  revert s. induction fuel as [|fuel IH]; intros s Hs; [discriminate|].
  simpl. destruct (in_bounds cell_map _).
  - intros [= <-]. lra.
  - intros H. apply IH in H; lra.
Qed.

Lemma cast_pass_cases (fuel : nat) (r : CastingRay) (p : pass) :
  cast_pass cell_map split_position get_enter_side fuel r = Ok p ->
  exists cell cell_pos : Vector2,
    split_position (end_position r) (square_size cell_map) = (cell, cell_pos)
    /\ let cell_type := get_cell cell_map (int (Vec.x cell)) (int (Vec.y cell)) in
       let enter_side := get_enter_side cell_pos (direction r) in
       p = Stop (add_segment_and_point (add_point r) (IsWall NORMAL))
       \/ (exists pt, cell_type = IsPortal pt
             /\ p = Again (teleport cell_map
                             (add_segment_and_point (add_point r) cell_type)))
       \/ (exists (r1 r2 : CastingRay) (a : action),
             (r1 = add_point r
              \/ exists m, cell_type = IsMirror m
                   /\ mirror_reflect cell_map
                        (restart_segment
                           (add_segment_and_point (add_point r) cell_type))
                        cell enter_side = Ok r1)
             /\ take_step cell_map fuel r1 cell_pos = Ok (a, r2)
             /\ p = match a with Break => Stop r2 | _ => Again r2 end).
Proof.
  unfold cast_pass. simpl end_position. simpl direction.
  destruct (split_position (end_position r) (square_size cell_map))
    as [cell cell_pos].
  intros H. exists cell, cell_pos. split; [reflexivity|]. cbv zeta.
  destruct (handle_type _ _ _ _ _) as [[a r1]| |] eqn:Hh; try discriminate.
  apply handle_type_cases in Hh.
  destruct Hh as [[-> ->] | [[-> (pt & Hpt & ->)] | [[-> ->] | [-> (m & Hm & Hr)]]]];
    simpl in H.
  - injection H as <-. auto.
  - injection H as <-. right; left. eauto.
  - destruct (take_step _ _ _ _) as [[a r2]| |] eqn:Ht; try discriminate.
    simpl in H. right; right. exists (add_point r), r2, a.
    split; [auto|]. split; [exact Ht|].
    destruct a; injection H as <-; reflexivity.
  - destruct (take_step _ _ _ _) as [[a r2]| |] eqn:Ht; try discriminate.
    simpl in H. right; right. exists r1, r2, a.
    split; [eauto|]. split; [exact Ht|].
    destruct a; injection H as <-; reflexivity.
Qed.

(** An invariant of the passes holds of the ray a cast ends on. *)
Lemma cast_invariant (Inv Post : CastingRay -> Prop) :
  (forall fuel r r',
     Inv r ->
     cast_pass cell_map split_position get_enter_side fuel r = Ok (Again r') ->
     Inv r') ->
  (forall fuel r r',
     Inv r ->
     cast_pass cell_map split_position get_enter_side fuel r = Ok (Stop r') ->
     Post r') ->
  forall fuel r r',
    Inv r -> cast cell_map split_position get_enter_side fuel r = Ok r' ->
    Post r'.
Proof.
  intros Hagain Hstop.
  induction fuel as [|fuel IH]; intros r r' Hr; [discriminate|].
  simpl.
  destruct (cast_pass _ _ _ _ _) as [[r1|r1]| |] eqn:Hp; try discriminate;
    simpl.
  - intros [= <-]. eauto.
  - eauto.
Qed.

End Passes.

(** ** Total distance and visible distance *)

Section Budget.

Variable cell_map : CellMap.
Variable split_position : Vector2 -> Q -> Vector2 * Vector2.
Variable get_enter_side : Vector2 -> Vector2 -> Direction.t.

Hypothesis unit_square :
  offsets_in_unit_square split_position (square_size cell_map).

Lemma mirror_reflect_fields (r r' : CastingRay) (cell : Vector2)
    (enter_side : Direction.t) :
  mirror_reflect cell_map r cell enter_side = Ok r' ->
  exists d, r' = set_direction r d.
Proof.
  intros H. apply mirror_reflect_flips in H. destruct H; eauto.
Qed.





End Budget.

Lemma fractional_part (q : Q) : 0 <= q - inject_Z (Qfloor q) < 1.
Proof.
  pose proof (Qfloor_le q) as Hlo.
  pose proof (Qlt_floor q) as Hhi.
  rewrite inject_Z_plus in Hhi. change (inject_Z 1) with 1 in Hhi.
  split; lra.
Qed.

Lemma split_position_unit_square (square_size : Q) :
  offsets_in_unit_square Cells.split_position square_size.
Proof.
  intros p. unfold Cells.split_position, Vec.x, Vec.y. cbn [fst snd].
  split; apply fractional_part.
Qed.



(** ** Contiguity of the segments *)

Lemma mirror_reflect_reflected (cell_map : CellMap) (r r' : CastingRay)
    (cell : Vector2) (enter_side : Direction.t) :
  mirror_reflect cell_map r cell enter_side = Ok r' ->
  reflected cell_map cell enter_side (direction r) = Ok (direction r')
  /\ segments r' = segments r /\ start_position r' = start_position r.
Proof.
  unfold reflected, mirror_reflect.
  destruct (ADJACENT_OFFSETS enter_side); [|discriminate].
  destruct (truthy _);
    destruct (Direction.in2 enter_side Direction.LEFT Direction.RIGHT);
    try (intros [= <-]; repeat split; reflexivity);
    destruct (Direction.in2 enter_side Direction.UP Direction.DOWN);
    intros [= <-]; repeat split; reflexivity.
Qed.

Section Contiguity.

Variable cell_map : CellMap.
Variable split_position : Vector2 -> Q -> Vector2 * Vector2.
Variable get_enter_side : Vector2 -> Vector2 -> Direction.t.

Lemma routed_last (l : list RaySegment) (x y : RaySegment)
    (hs : list Vector2) :
  routed cell_map split_position get_enter_side (l ++ [x]) hs ->
  start_pos y = start_pos x ->
  routed cell_map split_position get_enter_side (l ++ [y]) hs.
Proof.
  intros H Hxy i s s' h h' Hs Hs' Hh Hh'.
  assert (Hi : (S i < length (l ++ [y]))%nat).
  { apply nth_error_Some. rewrite Hs'. discriminate. }
  rewrite length_app in Hi. simpl in Hi.
  rewrite nth_error_app1 in Hs by lia.
  destruct (Nat.eq_dec (S i) (length l)) as [Heq | Hne].
  - rewrite nth_error_app2 in Hs' by lia.
    rewrite Heq, Nat.sub_diag in Hs'. injection Hs' as <-.
    rewrite Hxy. apply (H i s x h h'); trivial.
    + rewrite nth_error_app1 by lia. exact Hs.
    + rewrite nth_error_app2 by lia. now rewrite Heq, Nat.sub_diag.
  - rewrite nth_error_app1 in Hs' by lia.
    apply (H i s s' h h'); trivial; rewrite nth_error_app1 by lia; assumption.
Qed.

Lemma routed_snoc (l : list RaySegment) (x y : RaySegment)
    (hs : list Vector2) (h h' : Vector2) :
  routed cell_map split_position get_enter_side (l ++ [x]) (hs ++ [h]) ->
  length hs = length l ->
  turns cell_map split_position get_enter_side x h h' (start_pos y) ->
  routed cell_map split_position get_enter_side
    ((l ++ [x]) ++ [y]) ((hs ++ [h]) ++ [h']).
Proof.
  intros H Hlen Hturn i s s' k k' Hs Hs' Hk Hk'.
  assert (Hi : (S i < length ((l ++ [x]) ++ [y]))%nat).
  { apply nth_error_Some. rewrite Hs'. discriminate. }
  rewrite !length_app in Hi. simpl in Hi.
  assert (Hlx : length (l ++ [x]) = S (length l)).
  { rewrite length_app. simpl. lia. }
  assert (Hlh : length (hs ++ [h]) = S (length l)).
  { rewrite length_app. simpl. lia. }
  destruct (Nat.eq_dec i (length l)) as [Heq | Hne].
  - subst i.
    rewrite nth_error_app1 in Hs by lia.
    rewrite nth_error_app2 in Hs by lia.
    rewrite Nat.sub_diag in Hs. injection Hs as <-.
    rewrite nth_error_app2 in Hs' by lia.
    rewrite Hlx, Nat.sub_diag in Hs'. injection Hs' as <-.
    rewrite nth_error_app1 in Hk by lia.
    rewrite nth_error_app2 in Hk by lia.
    rewrite Hlen, Nat.sub_diag in Hk. injection Hk as <-.
    rewrite nth_error_app2 in Hk' by lia.
    rewrite Hlh, Nat.sub_diag in Hk'. injection Hk' as <-.
    exact Hturn.
  - rewrite nth_error_app1 in Hs, Hs', Hk, Hk' by lia.
    eapply H; eassumption.
Qed.

Lemma take_step_routed (fuel : nat) (h0 : Vector2) (r r2 : CastingRay)
    (cell_pos : Vector2) (a : action) :
  ray_routed cell_map split_position get_enter_side h0 r ->
  take_step cell_map fuel r cell_pos = Ok (a, r2) ->
  match a with
  | Break => route_from cell_map split_position get_enter_side h0 r2
  | _ => ray_routed cell_map split_position get_enter_side h0 r2
  end.
Proof.
  intros (hs & Hlen & H0 & Hr) H. apply take_step_cases in H.
  assert (Hfinish : forall adj t,
            route_from cell_map split_position get_enter_side h0
              (finish cell_map r adj t)).
  { intros adj t. exists (hs ++ [direction r]). simpl.
    split; [rewrite !length_app; simpl; lia|]. split; [exact H0|].
    eapply routed_last; [exact Hr | reflexivity]. }
  destruct H as [[-> ->] | (s & _ & _ & [[-> (adj & _ & ->)] | [-> ->]])].
  - apply Hfinish.
  - apply Hfinish.
  - exists hs. simpl. split; [exact Hlen|]. split; [exact H0|].
    eapply routed_last; [exact Hr | reflexivity].
Qed.

Lemma cast_pass_routed (fuel : nat) (h0 : Vector2) (r : CastingRay)
    (p : pass) :
  ray_routed cell_map split_position get_enter_side h0 r ->
  cast_pass cell_map split_position get_enter_side fuel r = Ok p ->
  match p with
  | Again r' => ray_routed cell_map split_position get_enter_side h0 r'
  | Stop r' => route_from cell_map split_position get_enter_side h0 r'
  end.
Proof.
  intros Hinv H. pose proof Hinv as (hs & Hlen & H0 & Hr).
  apply cast_pass_cases in H.
  destruct H as (cell & cell_pos & Hsplit & H). cbv zeta in H.
  assert (Hhead : forall d',
            nth_error ((hs ++ [direction r]) ++ [d']) 0 = Some h0).
  { intros d'. rewrite nth_error_app1; [exact H0|].
    rewrite length_app. simpl. lia. }
  assert (Hclosed : forall t,
            routed cell_map split_position get_enter_side
              (segments r ++ [current_segment (add_point r) t])
              (hs ++ [direction r])).
  { intros t. eapply routed_last; [exact Hr | reflexivity]. }
  destruct H as [-> | [(pt & Hpt & ->) | (r1 & r2 & a & Hr1 & Hstep & ->)]].
  - exists (hs ++ [direction r]). simpl.
    split; [rewrite !length_app; simpl; lia|]. split; [exact H0|].
    apply Hclosed.
  - rewrite Hpt. unfold ray_routed, teleport. simpl.
    destruct (portal_transform cell_map (end_position r) (direction r))
      as [pos dir] eqn:Ht. simpl.
    exists (hs ++ [direction r]).
    split; [rewrite !length_app; simpl; lia|]. split; [apply Hhead|].
    apply routed_snoc; [apply Hclosed | exact Hlen |].
    eapply turn_portal; simpl; rewrite ?Ht; reflexivity.
  - assert (H1 : ray_routed cell_map split_position get_enter_side h0 r1).
    { destruct Hr1 as [-> | (m & Hm & Hrefl)]; [exact Hinv|].
      rewrite Hm in Hrefl.
      apply mirror_reflect_reflected in Hrefl.
      destruct Hrefl as (Hrefl & Hsegs & Hstart). simpl in Hrefl, Hsegs, Hstart.
      exists (hs ++ [direction r]). rewrite Hsegs.
      split; [rewrite !length_app; simpl; lia|]. split; [apply Hhead|].
      apply routed_snoc; [apply Hclosed | exact Hlen |].
      eapply turn_mirror; simpl.
      - reflexivity.
      - exact Hstart.
      - rewrite Hsplit. simpl. exact Hrefl. }
    pose proof (take_step_routed _ _ _ _ _ _ H1 Hstep) as H2.
    destruct a; exact H2.
Qed.

(** C3 (amended). The segments of a completed cast were travelled with
    headings, the first with the heading of the cast, such that each segment
    but the last turns into the next one: a segment closed on a mirror ends
    where the next one starts, the heading being reflected there; a segment
    closed on a portal is followed by one that starts on the portal
    transform of its end and heading, moved by 0.05 along the heading of
    that transform; no other segment has a successor. *)
Theorem cast_segments_chained (heading start : Vector2) (D : Q) (fuel : nat)
    (r' : CastingRay) :
  cast cell_map split_position get_enter_side fuel (new_ray heading D start)
  = Ok r' ->
  exists headings : list Vector2,
    length headings = length (segments r')
    /\ nth_error headings 0 = Some heading
    /\ forall (i : nat) (s s' : RaySegment) (h : Vector2),
         nth_error (segments r') i = Some s ->
         nth_error (segments r') (S i) = Some s' ->
         nth_error headings i = Some h ->
         exists h',
           nth_error headings (S i) = Some h'
           /\ turns cell_map split_position get_enter_side s h h'
                (start_pos s').
Proof.
  intros Hcast.
  assert (H : route_from cell_map split_position get_enter_side heading r').
  { refine (cast_invariant cell_map split_position get_enter_side
              (ray_routed cell_map split_position get_enter_side heading)
              (route_from cell_map split_position get_enter_side heading)
              _ _ fuel _ r' _ Hcast).
    - intros fuel0 r r0 Hr Hp. exact (cast_pass_routed _ _ _ _ Hr Hp).
    - intros fuel0 r r0 Hr Hp. exact (cast_pass_routed _ _ _ _ Hr Hp).
    - exists []. simpl. split; [reflexivity|]. split; [reflexivity|].
      intros i s s' h h' _ Hs'. destruct i; discriminate Hs'. }
  destruct H as (hs & Hlen & H0 & Hr).
  exists hs. split; [exact Hlen|]. split; [exact H0|].
  intros i s s' h Hs Hs' Hh.
  destruct (nth_error hs (S i)) as [h'|] eqn:Hh'.
  - exists h'. split; [reflexivity|]. eapply Hr; eassumption.
  - exfalso. apply nth_error_None in Hh'.
    assert (S i < length (segments r'))%nat; [|lia].
    apply nth_error_Some. rewrite Hs'. discriminate.
Qed.

End Contiguity.

Lemma cast_segments_chained_witness :
  exists r' headings,
    cast mirror_map Cells.split_position Cells.get_enter_side 10
      (new_ray (1, 0) 3 (5, 5)) = Ok r'
    /\ length headings = length (segments r')
    /\ nth_error headings 0 = Some (1, 0)
    /\ forall (i : nat) (s s' : RaySegment) (h : Vector2),
         nth_error (segments r') i = Some s ->
         nth_error (segments r') (S i) = Some s' ->
         nth_error headings i = Some h ->
         exists h',
           nth_error headings (S i) = Some h'
           /\ turns mirror_map Cells.split_position Cells.get_enter_side
                s h h' (start_pos s').
Proof.
  destruct (cast_segments_chained mirror_map Cells.split_position
              Cells.get_enter_side (1, 0) (5, 5) 3 10 _
              ltac:(vm_compute; reflexivity)) as (headings & H).
  eexists. exists headings. split; [vm_compute; reflexivity | exact H].
Defined.

(** C3, as stated, fails across a teleport: the segment closed on the
    portal at (3, 0) ends at x = 30, the next one starts at x = 70.05. *)
Lemma cast_gap_after_portal :
  exists r' s s',
    cast portal_map Cells.split_position Cells.get_enter_side 10
      (new_ray (1, 0) 20 (5, 5)) = Ok r'
    /\ nth_error (segments r') 0 = Some s
    /\ nth_error (segments r') 1 = Some s'
    /\ Vec.x (end_pos s) == 30
    /\ Vec.x (start_pos s') == 1401 # 20
    /\ end_pos s <> start_pos s'.
Proof.
  eexists. eexists. eexists.
  split; [vm_compute; reflexivity|].
  split; [vm_compute; reflexivity|].
  split; [vm_compute; reflexivity|].
  split; [vm_compute; reflexivity|].
  split; [vm_compute; reflexivity|].
  vm_compute. discriminate.
Qed.

(** ** A fan without rays *)

(** X2. Without rays ([ray_count <= 0]) the list of angles is empty and
    [statistics.median] raises: [distribute_angles] ends in a
    [StatisticsError]. *)
Theorem distribute_angles_no_rays (fov center : Q) (n : Z) :
  (n <= 0)%Z -> distribute_angles fov n center = Raise StatisticsError.
Proof.
  intros Hn. unfold distribute_angles, range.
  assert (H : Z.to_nat n = 0%nat) by lia.
  rewrite H. reflexivity.
Qed.

Lemma distribute_angles_no_rays_witness :
  distribute_angles 60 0 350 = Raise StatisticsError.
Proof.
  apply distribute_angles_no_rays. lia.
Defined.

(** ** Blocks *)

Lemma xor_twice (a b : Direction.t) :
  Direction.xor_ (Direction.xor_ a b) b = a.
Proof.
  destruct a as [[] [] [] []], b as [[] [] [] []]; reflexivity.
Qed.

(** X3. Toggling the same sides of a mirror twice restores the mirror. *)
Theorem toggle_twice (m : Mirror) (s : Direction.t) :
  toggle (toggle m s) s = m.
Proof.
  destruct m as [sides0]. unfold toggle. simpl. now rewrite xor_twice.
Qed.

(** ** Invariants of a cast *)

Section Cast_measures.

Variable cell_map : CellMap.
Variable split_position : Vector2 -> Q -> Vector2 * Vector2.
Variable get_enter_side : Vector2 -> Vector2 -> Direction.t.

Hypothesis unit_square :
  offsets_in_unit_square split_position (square_size cell_map).

Lemma Forall_snoc (P : RaySegment -> Prop) (l : list RaySegment)
    (s : RaySegment) :
  Forall P l -> P s -> Forall P (l ++ [s]).
Proof.
  intros Hl Hs. apply Forall_app. auto.
Qed.

Lemma take_step_measured (fuel : nat) (r r2 : CastingRay)
    (cell_pos : Vector2) (a : action) :
  0 <= Vec.x cell_pos < 1 -> 0 <= Vec.y cell_pos < 1 ->
  measured r ->
  take_step cell_map fuel r cell_pos = Ok (a, r2) ->
  visible_distance r2 = visible_distance r /\ measured r2.
Proof.
  unfold measured. intros Hx Hy (Hseg & Hsd & Htot) H.
  pose proof (step_to_edge_positive _ _ (Vec.x (direction r))
                (Vec.y (direction r)) Hx Hy) as Hpos.
  apply take_step_cases in H.
  destruct H as [[-> ->] | (s & Hs & Hle & [[-> (adj & Hadj & ->)] | [-> ->]])];
    simpl.
  - split; [reflexivity|].
    split; [apply Forall_snoc; simpl; trivial; lra|]. split; lra.
  - rewrite Hs in Hpos. apply shrink_bounds in Hadj; [|lra].
    split; [reflexivity|].
    split; [apply Forall_snoc; simpl; trivial; lra|]. split; lra.
  - rewrite Hs in Hpos. split; [reflexivity|].
    split; [exact Hseg|]. split; lra.
Qed.

Lemma cast_pass_measured (fuel : nat) (r : CastingRay) (p : pass) :
  measured r ->
  cast_pass cell_map split_position get_enter_side fuel r = Ok p ->
  match p with
  | Again r' | Stop r' =>
      visible_distance r' = visible_distance r /\ measured r'
  end.
Proof.
  intros Hr H. pose proof Hr as (Hseg & Hsd & Htot).
  apply cast_pass_cases in H.
  destruct H as (cell & cell_pos & Hsplit & H). cbv zeta in H.
  destruct H as [-> | [(pt & Hpt & ->) | (r1 & r2 & a & Hr1 & Hstep & ->)]].
  - unfold measured. simpl. split; [reflexivity|].
    split; [apply Forall_snoc; trivial|]. auto.
  - unfold measured, teleport. simpl. destruct (portal_transform _ _ _).
    simpl. split; [reflexivity|].
    split; [apply Forall_snoc; trivial|]. split; [lra | exact Htot].
  - assert (H1 : visible_distance r1 = visible_distance r /\ measured r1).
    { destruct Hr1 as [-> | (m & _ & Hm)]; [split; [reflexivity | exact Hr]|].
      apply mirror_reflect_flips in Hm. unfold measured.
      destruct Hm as [-> | ->]; simpl;
        (split; [reflexivity|];
         split; [apply Forall_snoc; trivial|]; split; [lra | exact Htot]). }
    destruct H1 as [Hv H1].
    pose proof (unit_square (end_position r)) as Hu. cbv zeta in Hu.
    rewrite Hsplit in Hu. simpl in Hu. destruct Hu as [Hx Hy].
    destruct (take_step_measured _ _ _ _ _ Hx Hy H1 Hstep) as [Hv2 H2].
    rewrite Hv in Hv2. destruct a; auto.
Qed.

(** X6. No segment of a completed cast with a visible distance [D >= 0] has
    a negative distance. *)
Theorem cast_distances_nonnegative (heading start : Vector2) (D : Q)
    (fuel : nat) (r' : CastingRay) :
  0 <= D ->
  cast cell_map split_position get_enter_side fuel (new_ray heading D start)
  = Ok r' ->
  Forall (fun s => 0 <= distance s) (segments r').
Proof.
  intros HD Hcast.
  refine (cast_invariant cell_map split_position get_enter_side
            measured
            (fun r => Forall (fun s => 0 <= distance s) (segments r))
            _ _ fuel _ r' _ Hcast).
  - intros fuel0 r r0 Hr Hp. exact (proj2 (cast_pass_measured _ _ _ Hr Hp)).
  - intros fuel0 r r0 Hr Hp.
    exact (proj1 (proj2 (cast_pass_measured _ _ _ Hr Hp))).
  - unfold measured. simpl. split; [constructor|]. split; [lra | exact HD].
Qed.

End Cast_measures.

Lemma cast_distances_nonnegative_witness :
  exists r',
    cast mirror_map Cells.split_position Cells.get_enter_side 10
      (new_ray (1, 0) 3 (5, 5)) = Ok r'
    /\ Forall (fun s => 0 <= distance s) (segments r').
Proof.
  eexists. split; [vm_compute; reflexivity|].
  apply (cast_distances_nonnegative mirror_map Cells.split_position
           Cells.get_enter_side (split_position_unit_square _)
           (1, 0) (5, 5) 3 10).
  - discriminate.
  - vm_compute. reflexivity.
Defined.

Section Cast_border.

Variable cell_map : CellMap.
Variable split_position : Vector2 -> Q -> Vector2 * Vector2.
Variable get_enter_side : Vector2 -> Vector2 -> Direction.t.

Lemma shrink_in_bounds (fuel : nat) (r : CastingRay) (s adjusted : Q) :
  shrink cell_map fuel r s = Ok adjusted ->
  in_bounds cell_map
    (Vec.add (end_position r) (position_step cell_map r adjusted)) = true.
Proof.
  revert s. induction fuel as [|fuel IH]; intros s; [discriminate|].
  cbn [shrink].
  destruct (in_bounds cell_map
              (Vec.add (end_position r)
                 (position_step cell_map r (s * 0.99)))) eqn:Hin.
  - intros H. injection H as <-. exact Hin.
  - apply IH.
Qed.

Lemma cast_pass_border (fuel : nat) (r r' : CastingRay) :
  cast_pass cell_map split_position get_enter_side fuel r = Ok (Stop r') ->
  exists l s,
    segments r' = l ++ [s]
    /\ end_pos s = end_position r'
    /\ (end_type s = IsWall BORDER ->
        in_bounds cell_map (end_pos s) = true).
Proof.
  intros H. apply cast_pass_cases in H.
  destruct H as (cell & cell_pos & Hsplit & H). cbv zeta in H.
  destruct H as [H | [(pt & Hpt & H) | (r1 & r2 & a & Hr1 & Hstep & H)]].
  - injection H as ->. eexists; eexists.
    split; [reflexivity|]. split; [reflexivity | discriminate].
  - discriminate H.
  - destruct a; try discriminate H. injection H as ->.
    apply take_step_cases in Hstep.
    destruct Hstep as [[_ ->] | (s & _ & _ & [[_ (adj & Hadj & ->)] | [Ha _]])];
      try discriminate Ha.
    + eexists; eexists.
      split; [reflexivity|]. split; [reflexivity | discriminate].
    + eexists; eexists.
      split; [reflexivity|]. split; [reflexivity|].
      intros _. simpl. exact (shrink_in_bounds _ _ _ _ Hadj).
Qed.

(** X7. A completed cast whose last segment is tagged BORDER ends at a
    position within the bounds of the map. *)
Theorem cast_border_in_bounds (fuel : nat) (r r' : CastingRay)
    (l : list RaySegment) (s : RaySegment) :
  cast cell_map split_position get_enter_side fuel r = Ok r' ->
  segments r' = l ++ [s] ->
  end_type s = IsWall BORDER ->
  end_pos s = end_position r' /\ in_bounds cell_map (end_position r') = true.
Proof.
  intros Hcast.
  revert l s.
  refine (cast_invariant cell_map split_position get_enter_side
            (fun _ => True)
            (fun r0 => forall l s, segments r0 = l ++ [s] ->
               end_type s = IsWall BORDER ->
               end_pos s = end_position r0
               /\ in_bounds cell_map (end_position r0) = true)
            _ _ fuel r r' I Hcast).
  - trivial.
  - intros fuel0 r0 r1 _ Hp l s Hseg Hborder.
    apply cast_pass_border in Hp.
    destruct Hp as (l0 & s0 & Hseg0 & Hend & Hin).
    rewrite Hseg0 in Hseg. apply app_inj_tail in Hseg.
    destruct Hseg as [_ <-].
    split; [exact Hend|]. rewrite <- Hend. auto.
Qed.

End Cast_border.

Lemma cast_border_in_bounds_witness :
  exists r' l s,
    cast wall_map Cells.split_position Cells.get_enter_side 10
      (new_ray (-1, 0) 3 (5, 5)) = Ok r'
    /\ segments r' = l ++ [s]
    /\ end_type s = IsWall BORDER
    /\ end_pos s = end_position r'
    /\ in_bounds wall_map (end_position r') = true.
Proof.
  eexists. exists []. eexists.
  split; [vm_compute; reflexivity|].
  split; [vm_compute; reflexivity|].
  split; [vm_compute; reflexivity|].
  apply (cast_border_in_bounds wall_map Cells.split_position
           Cells.get_enter_side 10 (new_ray (-1, 0) 3 (5, 5)) _ []);
    vm_compute; reflexivity.
Defined.

Section Cast_heading.

Variable cell_map : CellMap.
Variable split_position : Vector2 -> Q -> Vector2 * Vector2.
Variable get_enter_side : Vector2 -> Vector2 -> Direction.t.

Hypothesis transform_keeps_magnitude : keeps_magnitude cell_map.

Lemma take_step_direction (fuel : nat) (r r2 : CastingRay)
    (cell_pos : Vector2) (a : action) :
  take_step cell_map fuel r cell_pos = Ok (a, r2) ->
  direction r2 = direction r.
Proof.
  intros H. apply take_step_cases in H.
  destruct H as [[-> ->] | (s & _ & _ & [[-> (adj & _ & ->)] | [-> ->]])];
    reflexivity.
Qed.

Lemma cast_pass_magnitude (fuel : nat) (r : CastingRay) (p : pass) :
  cast_pass cell_map split_position get_enter_side fuel r = Ok p ->
  match p with
  | Again r' | Stop r' =>
      Vec.magnitude_squared (direction r')
      == Vec.magnitude_squared (direction r)
  end.
Proof.
  intros H. apply cast_pass_cases in H.
  destruct H as (cell & cell_pos & Hsplit & H). cbv zeta in H.
  destruct H as [-> | [(pt & Hpt & ->) | (r1 & r2 & a & Hr1 & Hstep & ->)]].
  - reflexivity.
  - unfold teleport. simpl.
    pose proof (transform_keeps_magnitude (end_position r) (direction r)) as Hk.
    destruct (portal_transform cell_map (end_position r) (direction r)).
    exact Hk.
  - apply take_step_direction in Hstep.
    assert (H1 : Vec.magnitude_squared (direction r1)
                 == Vec.magnitude_squared (direction r)).
    { destruct Hr1 as [-> | (m & _ & Hm)]; [reflexivity|].
      apply mirror_reflect_flips in Hm.
      destruct Hm as [-> | ->]; simpl;
        unfold Vec.magnitude_squared, flip_horizontal, flip_vertical,
          Vec.x, Vec.y; simpl; ring. }
    destruct a; rewrite Hstep; exact H1.
Qed.

(** X8. Where the portal transform keeps the magnitude of the heading, a
    cast ends with a heading of the magnitude it started with, whatever the
    reflections and teleports on the way. *)
Theorem cast_keeps_magnitude (fuel : nat) (r r' : CastingRay) :
  cast cell_map split_position get_enter_side fuel r = Ok r' ->
  Vec.magnitude_squared (direction r') == Vec.magnitude_squared (direction r).
Proof.
  intros Hcast.
  refine (cast_invariant cell_map split_position get_enter_side
            (fun r0 => Vec.magnitude_squared (direction r0)
                       == Vec.magnitude_squared (direction r))
            (fun r0 => Vec.magnitude_squared (direction r0)
                       == Vec.magnitude_squared (direction r))
            _ _ fuel r r' _ Hcast).
  - intros fuel0 r0 r1 Hr Hp.
    rewrite <- Hr. exact (cast_pass_magnitude _ _ _ Hp).
  - intros fuel0 r0 r1 Hr Hp.
    rewrite <- Hr. exact (cast_pass_magnitude _ _ _ Hp).
  - reflexivity.
Qed.

End Cast_heading.

Lemma no_transform_keeps_magnitude (cells : Z -> Z -> type_) :
  keeps_magnitude (grid cells no_transform).
Proof.
  intros p d. reflexivity.
Qed.

Lemma cast_keeps_magnitude_witness :
  exists r',
    cast mirror_map Cells.split_position Cells.get_enter_side 10
      (new_ray (1, 0) 3 (5, 5)) = Ok r'
    /\ Vec.magnitude_squared (direction r') == Vec.magnitude_squared (1, 0).
Proof.
  eexists. split; [vm_compute; reflexivity|].
  apply (cast_keeps_magnitude mirror_map Cells.split_position
           Cells.get_enter_side (no_transform_keeps_magnitude _) 10
           (new_ray (1, 0) 3 (5, 5))).
  vm_compute. reflexivity.
Defined.

(** ** Progress of the march *)

Section Progress.

Variable cell_map : CellMap.
Variable split_position : Vector2 -> Q -> Vector2 * Vector2.
Variable get_enter_side : Vector2 -> Vector2 -> Direction.t.

Hypothesis unit_square :
  offsets_in_unit_square split_position (square_size cell_map).

(** C1 (amended). A pass after which the march goes on either teleported
    the ray through a portal, leaving the total distance as it was, or moved
    it by a step after which the total distance is not smaller than before
    and not greater than the visible distance.  Nothing bounds the number of
    passes of the first kind. *)
Theorem cast_pass_distance (fuel : nat) (r r' : CastingRay) :
  cast_pass cell_map split_position get_enter_side fuel r = Ok (Again r') ->
  visible_distance r' = visible_distance r
  /\ ((exists pt,
         (let cell :=
            fst (split_position (end_position r) (square_size cell_map)) in
          get_cell cell_map (int (Vec.x cell)) (int (Vec.y cell))
          = IsPortal pt)
         /\ total_distance r' = total_distance r)
      \/ total_distance r <= total_distance r' <= visible_distance r).
Proof.
  intros H. apply cast_pass_cases in H.
  destruct H as (cell & cell_pos & Hsplit & H). cbv zeta in H.
  destruct H as [H | [(pt & Hpt & H) | (r1 & r2 & a & Hr1 & Hstep & H)]].
  - discriminate H.
  - injection H as ->.
    split; [unfold teleport; simpl; destruct (portal_transform _ _ _);
            reflexivity|].
    left. exists pt. rewrite Hsplit. split; [exact Hpt|].
    unfold teleport. simpl. destruct (portal_transform _ _ _). reflexivity.
  - assert (H1 : total_distance r1 = total_distance r
                 /\ visible_distance r1 = visible_distance r).
    { destruct Hr1 as [-> | (m & _ & Hm)]; [split; reflexivity|].
      apply mirror_reflect_fields in Hm. destruct Hm as [d ->].
      split; reflexivity. }
    destruct H1 as [H1 H1v].
    pose proof (unit_square (end_position r)) as Hu. cbv zeta in Hu.
    rewrite Hsplit in Hu. simpl in Hu. destruct Hu as [Hx Hy].
    pose proof (step_to_edge_positive _ _ (Vec.x (direction r1))
                  (Vec.y (direction r1)) Hx Hy) as Hpos.
    apply take_step_cases in Hstep.
    destruct Hstep as [[-> _] | (s & Hs & Hle & [[-> _] | [-> Hr2]])];
      try discriminate H.
    injection H as <-. rewrite Hr2. rewrite Hs in Hpos. simpl.
    rewrite <- H1, <- H1v. split; [reflexivity|]. right. split; lra.
Qed.

End Progress.

Lemma cast_pass_distance_witness :
  let r := new_ray (1, 0) 3 (5, 5) in
  exists r',
    cast_pass wall_map Cells.split_position Cells.get_enter_side 0 r
    = Ok (Again r')
    /\ total_distance r <= total_distance r' <= visible_distance r.
Proof.
  intros r. eexists. split; [vm_compute; reflexivity|].
  destruct (cast_pass_distance wall_map Cells.split_position
              Cells.get_enter_side (split_position_unit_square _) 0 r _
              ltac:(vm_compute; reflexivity)) as [_ [(pt & Hpt & _) | H]].
  - vm_compute in Hpt. discriminate Hpt.
  - exact H.
Defined.

(** ** Portal cycles *)

Section Portal_cycle.

Variable cell_map : CellMap.
Variable split_position : Vector2 -> Q -> Vector2 * Vector2.
Variable get_enter_side : Vector2 -> Vector2 -> Direction.t.

(** A set of positions and headings, each in a portal cell entered on a
    linked side, that the teleport does not leave. *)
Variable trapped : Vector2 -> Vector2 -> Prop.

Hypothesis trapped_in_portal :
  forall pos heading : Vector2,
    trapped pos heading ->
    exists pt l,
      get_cell cell_map
        (int (Vec.x (fst (split_position pos (square_size cell_map)))))
        (int (Vec.y (fst (split_position pos (square_size cell_map)))))
      = IsPortal pt
      /\ links_get pt
           (get_enter_side (snd (split_position pos (square_size cell_map)))
              heading)
         = Some (Some l).

Hypothesis trapped_closed :
  forall pos heading : Vector2,
    trapped pos heading ->
    let new := portal_transform cell_map pos heading in
    trapped (Vec.add (fst new) (Vec.scale (snd new) (5 # 100))) (snd new).

Lemma trapped_pass (fuel : nat) (r : CastingRay) :
  trapped (end_position r) (direction r) ->
  exists r',
    cast_pass cell_map split_position get_enter_side fuel r = Ok (Again r')
    /\ trapped (end_position r') (direction r')
    /\ total_distance r' = total_distance r.
Proof.
  intros Hr.
  destruct (trapped_in_portal _ _ Hr) as (pt & l & Hcell & Hlink).
  pose proof (trapped_closed _ _ Hr) as Hnext. cbv zeta in Hnext.
  unfold cast_pass. simpl end_position. simpl direction.
  destruct (split_position (end_position r) (square_size cell_map))
    as [cell cell_pos].
  simpl in Hcell, Hlink. rewrite Hcell. cbn [handle_type].
  rewrite Hlink. cbn [bind].
  eexists. split; [reflexivity|].
  unfold teleport. simpl.
  destruct (portal_transform cell_map (end_position r) (direction r))
    as [pos dir].
  simpl. split; [exact Hnext | reflexivity].
Qed.

(** X10. The loop of [cast] has no guard against a cycle of portals: a ray
    in a portal cell entered on a linked side, whose teleport always lands
    in such a cell again, is teleported on every pass without any distance
    being covered, and the cast never ends. *)
Theorem cast_portal_cycle (fuel : nat) (r : CastingRay) :
  trapped (end_position r) (direction r) ->
  cast cell_map split_position get_enter_side fuel r = Timeout.
Proof.
  revert r. induction fuel as [|fuel IH]; intros r Hr; [reflexivity|].
  destruct (trapped_pass fuel r Hr) as (r' & Hpass & Hr' & _).
  cbn [cast]. rewrite Hpass. cbn [bind]. apply IH, Hr'.
Qed.

End Portal_cycle.

Lemma Qfloor_unit (q : Q) : 0 <= q < 1 -> Qfloor q = 0%Z.
Proof.
  intros [Hlo Hhi].
  pose proof (Qfloor_le q) as Hle.
  pose proof (Qlt_floor q) as Hlt.
  assert (H1 : inject_Z (Qfloor q) < inject_Z 1) by (change (inject_Z 1) with 1; lra).
  assert (H2 : inject_Z (-1) < inject_Z (Qfloor q)).
  { rewrite inject_Z_plus in Hlt. change (inject_Z 1) with 1 in Hlt.
    change (inject_Z (-1)) with (-1). lra. }
  rewrite <- Zlt_Qlt in H1, H2. lia.
Qed.

Lemma in_loop_in_portal (pos heading : Vector2) :
  in_loop pos heading ->
  exists pt l,
    get_cell loop_map
      (int (Vec.x (fst (Cells.split_position pos (square_size loop_map)))))
      (int (Vec.y (fst (Cells.split_position pos (square_size loop_map)))))
    = IsPortal pt
    /\ links_get pt
         (Cells.get_enter_side
            (snd (Cells.split_position pos (square_size loop_map))) heading)
       = Some (Some l).
Proof.
  intros (-> & Hx & Hy).
  exists portal_X, ((6, 0)%Z, Direction.RIGHT).
  unfold Cells.split_position. cbn [fst snd square_size loop_map grid].
  rewrite Hx.
  assert (Hfloor : Qfloor (Vec.y pos / 10) = 0%Z).
  { apply Qfloor_unit. split.
    - apply Qle_shift_div_l; lra.
    - apply Qlt_shift_div_r; lra. }
  rewrite Hfloor.
  split; [vm_compute; reflexivity|].
  unfold Cells.get_enter_side. cbn [Vec.x Vec.y fst snd].
  unfold Cells.since_entry.
  change (gtb 1 0) with true. change (gtb 0 0) with false.
  change (ltb 0 0) with false. cbn iota. reflexivity.
Qed.

Lemma in_loop_closed (pos heading : Vector2) :
  in_loop pos heading ->
  let new := portal_transform loop_map pos heading in
  in_loop (Vec.add (fst new) (Vec.scale (snd new) (5 # 100))) (snd new).
Proof.
  intros (-> & Hx & Hy).
  cbn [portal_transform loop_map grid to_right_of_6 fst snd Vec.add
       Vec.scale Vec.x Vec.y].
  unfold in_loop, Vec.add, Vec.scale, Vec.x, Vec.y in *. cbn [fst snd].
  split; [reflexivity|]. split; [reflexivity|]. lra.
Qed.

Lemma cast_portal_cycle_witness :
  cast loop_map Cells.split_position Cells.get_enter_side 1000
    (new_ray (1, 0) 20 (70 + 1 * (5 # 100), 5)) = Timeout.
Proof.
  apply (cast_portal_cycle loop_map Cells.split_position Cells.get_enter_side
           in_loop in_loop_in_portal in_loop_closed).
  split; [reflexivity|]. split; [reflexivity|].
  split; [discriminate | reflexivity].
Defined.

Lemma cast_again (cell_map : CellMap)
    (split_position : Vector2 -> Q -> Vector2 * Vector2)
    (get_enter_side : Vector2 -> Vector2 -> Direction.t)
    (fuel : nat) (r r' : CastingRay) :
  cast_pass cell_map split_position get_enter_side fuel r = Ok (Again r') ->
  cast cell_map split_position get_enter_side (S fuel) r
  = cast cell_map split_position get_enter_side fuel r'.
Proof.
  intros H. cbn [cast]. rewrite H. reflexivity.
Qed.

Lemma cast_in_loop (fuel : nat) :
  cast loop_map Cells.split_position Cells.get_enter_side fuel
    (new_ray (1, 0) 20 (5, 5)) = Timeout.
Proof.
  assert (Hloop : forall f r,
            in_loop (end_position r) (direction r) ->
            cast loop_map Cells.split_position Cells.get_enter_side f r
            = Timeout).
  { induction f as [|f IH]; intros r Hr; [reflexivity|].
    destruct (trapped_pass loop_map Cells.split_position Cells.get_enter_side
                in_loop in_loop_in_portal in_loop_closed f r Hr)
      as (r' & Hpass & Hr' & _).
    rewrite (cast_again _ _ _ _ _ _ Hpass). apply IH, Hr'. }
  do 4 (destruct fuel as [|fuel]; [reflexivity|]).
  do 4 (erewrite cast_again by (vm_compute; reflexivity)).
  apply Hloop.
  split; [vm_compute; reflexivity|]. split; [vm_compute; reflexivity|].
  split; vm_compute; [discriminate | reflexivity].
Qed.

(** In [loop_map], the ray cast from (5, 5) with heading (1, 0) enters the
    portal at (3, 0) on its fourth pass and never ends: the loop is still
    running after any number of passes. *)
Lemma cast_never_ends_in_loop :
  never_ends loop_map Cells.split_position Cells.get_enter_side
    (new_ray (1, 0) 20 (5, 5)).
Proof.
  intros fuel. apply cast_in_loop.
Qed.

(** ** Sides that are no keys *)

Lemma eqb_eq (a b : Direction.t) : Direction.eqb a b = true <-> a = b.
Proof.
  split.
  - destruct a as [[] [] [] []], b as [[] [] [] []];
      try discriminate; reflexivity.
  - intros ->. destruct b as [[] [] [] []]; reflexivity.
Qed.

Lemma eqb_neq (a b : Direction.t) : a <> b -> Direction.eqb a b = false.
Proof.
  intros H. apply not_true_iff_false. now rewrite eqb_eq.
Qed.

Lemma links_get_no_key (p : Portal) (side : Direction.t) :
  ~ Direction.cardinal side -> links_get p side = None.
Proof.
  unfold Direction.cardinal, links_get. intros H.
  rewrite !eqb_neq; tauto.
Qed.

Lemma ADJACENT_OFFSETS_no_key (side : Direction.t) :
  ~ Direction.cardinal side -> ADJACENT_OFFSETS side = None.
Proof.
  unfold Direction.cardinal, ADJACENT_OFFSETS. intros H.
  rewrite !eqb_neq; tauto.
Qed.

Section Key_errors.

Variable cell_map : CellMap.
Variable split_position : Vector2 -> Q -> Vector2 * Vector2.
Variable get_enter_side : Vector2 -> Vector2 -> Direction.t.

(** X11. When [get_enter_side] returns a value that is not one of the four
    single sides (no side, or several), a ray in a portal cell, or in a
    mirror cell with one of those sides reflecting, ends the cast with a
    [KeyError]: the value is no key of [links] nor of [ADJACENT_OFFSETS]. *)
Theorem cast_key_error (fuel : nat) (r : CastingRay) (cell cell_pos : Vector2) :
  split_position (end_position r) (square_size cell_map) = (cell, cell_pos) ->
  let cell_type := get_cell cell_map (int (Vec.x cell)) (int (Vec.y cell)) in
  let enter_side := get_enter_side cell_pos (direction r) in
  ~ Direction.cardinal enter_side ->
  (exists p, cell_type = IsPortal p)
  \/ (exists m, cell_type = IsMirror m
        /\ Direction.bool_ (Direction.and_ (sides m) enter_side) = true) ->
  cast cell_map split_position get_enter_side (S fuel) r = Raise KeyError.
Proof.
  intros Hsplit cell_type enter_side Hside Hcell.
  cbn [cast]. unfold cast_pass. simpl end_position. simpl direction.
  rewrite Hsplit. fold cell_type enter_side.
  destruct Hcell as [[p ->] | (m & -> & Hm)]; cbn [handle_type].
  - rewrite links_get_no_key by exact Hside. reflexivity.
  - rewrite Hm. cbn [negb]. unfold mirror_reflect.
    rewrite ADJACENT_OFFSETS_no_key by exact Hside. reflexivity.
Qed.

(** X12. A portal as [Portal()] builds it has no link: a ray that lands in
    its cell, through whichever of the four sides, closes its segment
    tagged NORMAL and the cast ends there. *)
Theorem cast_unlinked_portal (fuel : nat) (r : CastingRay)
    (cell cell_pos : Vector2) :
  split_position (end_position r) (square_size cell_map) = (cell, cell_pos) ->
  get_cell cell_map (int (Vec.x cell)) (int (Vec.y cell)) = IsPortal new_portal ->
  Direction.cardinal (get_enter_side cell_pos (direction r)) ->
  exists r',
    cast cell_map split_position get_enter_side (S fuel) r = Ok r'
    /\ segments r'
       = segments r
         ++ [ {| start_pos := start_position r; end_pos := end_position r;
                 distance := segment_distance r;
                 end_type := IsWall NORMAL |} ]
    /\ total_distance r' = total_distance r.
Proof.
  intros Hsplit Hcell Hside.
  cbn [cast]. unfold cast_pass. simpl end_position. simpl direction.
  rewrite Hsplit, Hcell. cbn [handle_type].
  assert (Hlink : links_get new_portal (get_enter_side cell_pos (direction r))
                  = Some None).
  { destruct Hside as [-> | [-> | [-> | ->]]]; reflexivity. }
  rewrite Hlink. cbn [bind]. eexists. split; [reflexivity|].
  split; reflexivity.
Qed.

(** X13. A ray with a zero heading has an infinite step to the edge: it is
    closed as exhausted on its first step, without moving, with the whole
    visible distance as its total distance. *)
Theorem take_step_zero_heading (fuel : nat) (r : CastingRay)
    (cell_pos : Vector2) :
  Vec.x (direction r) == 0 -> Vec.y (direction r) == 0 ->
  exists r2,
    take_step cell_map fuel r cell_pos = Ok (Break, r2)
    /\ segments r2
       = segments r
         ++ [ {| start_pos := start_position r; end_pos := end_position r2;
                 distance := segment_distance r2; end_type := False_ |} ]
    /\ total_distance r2 == visible_distance r
    /\ Vec.x (end_position r2) == Vec.x (end_position r)
    /\ Vec.y (end_position r2) == Vec.y (end_position r).
Proof.
  intros Hx Hy. unfold take_step, step_to_edge. cbn [fst snd].
  assert (Hgx : gtb (Vec.x (direction r)) 0 = false).
  { apply ltb_ge. lra. }
  assert (Hlx : ltb (Vec.x (direction r)) 0 = false).
  { apply ltb_ge. lra. }
  assert (Hgy : gtb (Vec.y (direction r)) 0 = false).
  { apply ltb_ge. lra. }
  assert (Hly : ltb (Vec.y (direction r)) 0 = false).
  { apply ltb_ge. lra. }
  rewrite Hgx, Hlx, Hgy, Hly. cbn [min eltb].
  eexists. split; [reflexivity|].
  split; [reflexivity|].
  unfold finish, position_step, Vec.add, Vec.scale. simpl.
  unfold Vec.x, Vec.y in *. cbn [fst snd].
  split; [ring|]. split.
  - rewrite Hx. ring.
  - rewrite Hy. ring.
Qed.

End Key_errors.

Lemma cast_key_error_witness :
  cast portal_map Cells.split_position Cells.get_enter_side 1
    (new_ray (0, 0) 20 (35, 5)) = Raise KeyError.
Proof.
  apply (cast_key_error portal_map Cells.split_position Cells.get_enter_side
           0 (new_ray (0, 0) 20 (35, 5))
           (fst (Cells.split_position (35, 5) 10))
           (snd (Cells.split_position (35, 5) 10))).
  - reflexivity.
  - vm_compute. intros [H | [H | [H | H]]]; discriminate H.
  - left. exists portal_X. vm_compute. reflexivity.
Defined.

Lemma cast_unlinked_portal_witness :
  let r := new_ray (1, 0) 20 (60, 5) in
  exists r',
    cast loop_map Cells.split_position Cells.get_enter_side 1 r = Ok r'
    /\ segments r'
       = segments r
         ++ [ {| start_pos := start_position r; end_pos := end_position r;
                 distance := segment_distance r;
                 end_type := IsWall NORMAL |} ]
    /\ total_distance r' = total_distance r.
Proof.
  intros r.
  apply (cast_unlinked_portal loop_map Cells.split_position
           Cells.get_enter_side 0 r
           (fst (Cells.split_position (60, 5) 10))
           (snd (Cells.split_position (60, 5) 10))).
  - reflexivity.
  - vm_compute. reflexivity.
  - right; right; right. vm_compute. reflexivity.
Defined.

Lemma take_step_zero_heading_witness :
  let r := new_ray (0, 0) 3 (5, 5) in
  exists r2,
    take_step wall_map 0 r (1 # 2, 1 # 2) = Ok (Break, r2)
    /\ segments r2
       = segments r
         ++ [ {| start_pos := start_position r; end_pos := end_position r2;
                 distance := segment_distance r2; end_type := False_ |} ]
    /\ total_distance r2 == visible_distance r
    /\ Vec.x (end_position r2) == Vec.x (end_position r)
    /\ Vec.y (end_position r2) == Vec.y (end_position r).
Proof.
  intros r.
  apply (take_step_zero_heading wall_map 0 r (1 # 2, 1 # 2)); reflexivity.
Defined.

(** ** The sides of a portal *)

(** X14. [get_subrect_indices] fails with the [TypeError] of [reduce] on a
    portal without any link; otherwise it asks for the indices of exactly
    the set of linked sides. *)
Theorem get_subrect_indices_linked_sides (indices : Direction.t -> list Z)
    (p : Portal) :
  get_subrect_indices indices p
  = if is_set (links_up p) || is_set (links_right p)
       || is_set (links_down p) || is_set (links_left p)
    then Some (indices (Direction.mk (is_set (links_up p))
                          (is_set (links_right p))
                          (is_set (links_down p))
                          (is_set (links_left p))))
    else None.
Proof.
  unfold get_subrect_indices, linked_directions.
  destruct (links_up p), (links_down p), (links_left p), (links_right p);
    reflexivity.
Qed.

(** ** The moves of the player *)

Section Moves.

Variable cell_map : CellMap.

(** [pygame.Vector2.rotate] and the integer centre of a [pygame.Rect]. *)
Variable rotate : Vector2 -> Q -> Vector2.
Variable centered : Vector2 -> Z * Z.

(** C8 (amended). A tick with a movement combo that is not NONE after
    [resolved]: the player ends at the clamped position of a player [p']
    such that, from an empty cell to a new position in a portal cell,
    position and heading of [p'] are those of the portal transform of the new
    position, without any nudge; otherwise the heading is kept, x becomes the
    new x when the cell of (new x, old y) is empty, and then y becomes the
    new y when the cell of (x after that, new y) is empty.  The centre of the
    rectangle is set from the position before the clamp. *)
Theorem move_cases (p : Player.t) (keys : key -> bool) :
  let combo := Player.pressed_combo keys in
  let multiplier := if keys K_LSHIFT then SPEED_MULTIPLIER else 1 in
  let new_position :=
    Vec.add (Player.position p)
      (Vec.scale (rotate (Player.direction p) (MOVEMENT_ANGLES_get combo))
         multiplier) in
  let new_x := Vec.x new_position in
  let new_y := Vec.y new_position in
  let old_x := Vec.x (Player.position p) in
  let old_y := Vec.y (Player.position p) in
  let teleports :=
    is_portal (Player.type_at cell_map (Player.cell_of cell_map new_x new_y))
    && is_false
         (Player.type_at cell_map (Player.cell_of cell_map old_x old_y)) in
  let moved := Player.move cell_map rotate centered p keys in
  MovementCombo.value combo = true ->
  exists pos dir,
    (teleports = true ->
       (pos, dir) = portal_transform cell_map new_position (Player.direction p))
    /\ (teleports = false ->
        let x' := if occupied cell_map new_x old_y then old_x else new_x in
        let y' := if occupied cell_map x' new_y then old_y else new_y in
        pos = (x', y') /\ dir = Player.direction p)
    /\ Player.position moved
       = (clamp (Vec.x pos) (Player.radius p)
            (fst (size cell_map) - Player.radius p),
          clamp (Vec.y pos) (Player.radius p)
            (snd (size cell_map) - Player.radius p))
    /\ Player.direction moved = dir
    /\ Player.rect_center moved = centered pos
    /\ Player.radius moved = Player.radius p.
Proof.
  cbv zeta. intros Hvalue.
  unfold Player.move. rewrite Hvalue.
  unfold Player.candidate, Player.displace, Player.keep_in_bounds, occupied.
  destruct (is_portal _ && is_false _).
  - destruct (portal_transform _ _ _) as [pos dir]. exists pos, dir.
    split; [reflexivity | split; [discriminate|]].
    repeat split.
  - unfold Player.glide.
    destruct (truthy
                (Player.type_at cell_map
                   (Player.cell_of cell_map _ (Vec.y (Player.position p)))));
      cbn [negb].
    + destruct (truthy _); cbn [negb];
        eexists; eexists;
        (split; [discriminate | split; [intros _; split; reflexivity|]]);
        cbn [Player.position Player.direction Player.rect_center
             Player.radius Player.set_position Vec.x Vec.y fst snd];
        repeat split; destruct (Player.position p); reflexivity.
    + destruct (truthy _); cbn [negb];
        eexists; eexists;
        (split; [discriminate | split; [intros _; split; reflexivity|]]);
        cbn [Player.position Player.direction Player.rect_center
             Player.radius Player.set_position Vec.x Vec.y fst snd];
        repeat split.
Qed.

(** X16. The per-axis move never takes the player into an occupied cell:
    after it the player is where it was, or in a cell that is empty. *)
Theorem glide_stays_free (p : Player.t) (new_x new_y : Q) :
  let p' := Player.glide cell_map p new_x new_y in
  Player.position p' = Player.position p
  \/ occupied cell_map (Vec.x (Player.position p'))
       (Vec.y (Player.position p')) = false.
Proof.
  cbv zeta. unfold Player.glide.
  destruct (occupied cell_map new_x (Vec.y (Player.position p))) eqn:Hx;
    unfold occupied in Hx; rewrite Hx; cbn [negb].
  - destruct (occupied cell_map (Vec.x (Player.position p)) new_y) eqn:Hy;
      unfold occupied in Hy; rewrite Hy; cbn [negb]; [now left | right].
    exact Hy.
  - cbn [Player.position Player.set_position Vec.x Vec.y fst snd].
    destruct (occupied cell_map new_x new_y) eqn:Hy;
      unfold occupied in Hy; rewrite Hy; cbn [negb]; right; assumption.
Qed.

(** X17. No cutting of corners: when the cells of (new x, old y) and of
    (old x, new y) are both occupied, the per-axis move leaves the player
    where it is, whatever the cell of (new x, new y) holds. *)
Theorem glide_blocked (p : Player.t) (new_x new_y : Q) :
  occupied cell_map new_x (Vec.y (Player.position p)) = true ->
  occupied cell_map (Vec.x (Player.position p)) new_y = true ->
  Player.glide cell_map p new_x new_y = p.
Proof.
  unfold occupied. intros Hx Hy. unfold Player.glide.
  rewrite Hx. cbn [negb]. rewrite Hy. reflexivity.
Qed.

Lemma clamp_within (value lo hi : Q) :
  lo <= hi -> lo <= clamp value lo hi <= hi.
Proof.
  intros H. unfold clamp.
  destruct (ltb value lo) eqn:Hlo; [lra|].
  apply ltb_ge in Hlo.
  destruct (gtb value hi) eqn:Hhi; [lra|].
  apply ltb_ge in Hhi. lra.
Qed.

Lemma displace_radius (p : Player.t) (new_position : Vector2) :
  Player.radius (Player.displace cell_map centered p new_position)
  = Player.radius p.
Proof.
  unfold Player.displace.
  destruct (is_portal _ && is_false _).
  - destruct (portal_transform _ _ _). reflexivity.
  - unfold Player.glide.
    destruct (truthy _); simpl; destruct (truthy _); reflexivity.
Qed.

(** X18. Whatever the keys and the portal transform, a tick leaves the
    player within the map inset by its radius, provided the map is at least
    two radii wide and high. *)
Theorem move_keeps_in_bounds (p : Player.t) (keys : key -> bool) :
  Player.radius p <= fst (size cell_map) - Player.radius p ->
  Player.radius p <= snd (size cell_map) - Player.radius p ->
  let p' := Player.move cell_map rotate centered p keys in
  Player.radius p <= Vec.x (Player.position p')
                  <= fst (size cell_map) - Player.radius p
  /\ Player.radius p <= Vec.y (Player.position p')
                     <= snd (size cell_map) - Player.radius p.
Proof.
  intros Hw Hh. cbv zeta. unfold Player.move, Player.keep_in_bounds.
  set (p1 := if MovementCombo.value _ then _ else p).
  assert (Hr : Player.radius p1 = Player.radius p).
  { unfold p1. destruct (MovementCombo.value _); [|reflexivity].
    apply displace_radius. }
  cbn [Player.position Player.set_position Vec.x Vec.y fst snd].
  rewrite Hr. split; apply clamp_within; assumption.
Qed.

End Moves.

Lemma move_cases_witness :
  exists pos dir,
    (pos, dir) = portal_transform portal_map (30 + (1 # 2), 5) (1, 0)
    /\ Player.rect_center
         (Player.move portal_map rotate_right_angles rounded player_at_portal
            forward_key)
       = rounded pos.
Proof.
  destruct (move_cases portal_map rotate_right_angles rounded
              player_at_portal forward_key ltac:(vm_compute; reflexivity))
    as (pos & dir & Hportal & _ & _ & _ & Hcentre & _).
  exists pos, dir. split; [|exact Hcentre].
  rewrite (Hportal ltac:(vm_compute; reflexivity)). reflexivity.
Defined.

Lemma glide_blocked_witness :
  Player.glide corner_map player_at_corner (20 + (1 # 2)) (9 + (1 # 2))
  = player_at_corner.
Proof.
  apply glide_blocked; vm_compute; reflexivity.
Defined.

Lemma move_keeps_in_bounds_witness :
  let p' := Player.move portal_map rotate_right_angles rounded
              player_at_portal forward_key in
  2 <= Vec.x (Player.position p') <= fst (size portal_map) - 2
  /\ 2 <= Vec.y (Player.position p') <= snd (size portal_map) - 2.
Proof.
  apply (move_keeps_in_bounds portal_map rotate_right_angles rounded
           player_at_portal forward_key); vm_compute; discriminate.
Defined.

(** ** The fan of rays *)

Lemma distribute_angles_length (fov center : Q) (n : Z) (angles : list Q) :
  distribute_angles fov n center = Ok angles -> length angles = Z.to_nat n.
Proof.
  unfold distribute_angles.
  destruct (median _) as [m| |]; try discriminate.
  cbn [bind]. intros [= <-].
  unfold range. now rewrite !length_map, length_seq.
Qed.

Lemma dict_set_length (data : list (Q * ray_result)) (angle : Q)
    (value : ray_result) :
  (length (dict_set data angle value) <= S (length data))%nat.
Proof.
  induction data as [|[k v] data IH]; simpl; [lia|].
  destruct (Qeq_bool k angle); simpl; lia.
Qed.

Lemma dict_set_entries (data : list (Q * ray_result)) (angle : Q)
    (value : ray_result) (k : Q) (v : ray_result) :
  In (k, v) (dict_set data angle value) ->
  In (k, v) data \/ (k == angle /\ v = value).
Proof.
  induction data as [|[k0 v0] data IH]; simpl.
  - intros [[= <- <-] | []]. right. split; [reflexivity | trivial].
  - destruct (Qeq_bool k0 angle) eqn:Hk; simpl.
    + intros [[= <- <-] | H]; [|auto].
      right. split; [now apply Qeq_bool_iff | trivial].
    + intros [H | H]; [auto|]. destruct (IH H); auto.
Qed.

Lemma dict_set_keys (data : list (Q * ray_result)) (angle : Q)
    (value : ray_result) (k : Q) :
  InA Qeq k (map fst (dict_set data angle value)) ->
  InA Qeq k (map fst data) \/ k == angle.
Proof.
  induction data as [|[k0 v0] data IH]; simpl.
  - intros H. inversion H as [? ? Hk | ? ? Hk]; subst; [auto|].
    inversion Hk.
  - destruct (Qeq_bool k0 angle) eqn:Hk0; simpl.
    + intros H. left. exact H.
    + intros H. inversion H as [? ? Hk | ? ? Hk]; subst.
      * left. now constructor.
      * destruct (IH Hk) as [H1 | H1]; [left; now constructor 2 | auto].
Qed.

Lemma dict_set_distinct (data : list (Q * ray_result)) (angle : Q)
    (value : ray_result) :
  NoDupA Qeq (map fst data) ->
  NoDupA Qeq (map fst (dict_set data angle value)).
Proof.
  induction data as [|[k0 v0] data IH]; simpl; intros H.
  - constructor; [|constructor]. intros Hin. inversion Hin.
  - inversion H as [|? ? Hnotin Hrest]; subst.
    destruct (Qeq_bool k0 angle) eqn:Hk0; simpl.
    + constructor; assumption.
    + constructor; [|auto].
      intros Hin. apply dict_set_keys in Hin. destruct Hin as [Hin | Hin].
      * contradiction.
      * apply Qeq_bool_iff in Hin. congruence.
Qed.

Section Fan_properties.

Variable cell_map : CellMap.
Variable split_position : Vector2 -> Q -> Vector2 * Vector2.
Variable get_enter_side : Vector2 -> Vector2 -> Direction.t.
Variable rotate : Vector2 -> Q -> Vector2.

(** X19. Without rays ([ray_count <= 0]) [cast_rays] raises the
    [StatisticsError] of [distribute_angles] before it clears [ray_data],
    which keeps the rays of the previous call. *)
Theorem cast_rays_no_rays (fuel : nat) (rc : Raycaster)
    (angle_center visible_distance : Q) :
  (ray_count rc <= 0)%Z ->
  cast_rays cell_map split_position get_enter_side rotate fuel rc
    angle_center visible_distance
  = (rc, Raise StatisticsError).
Proof.
  intros Hn. unfold cast_rays.
  assert (H : distribute_angles (fov rc) (ray_count rc) angle_center
              = Raise StatisticsError).
  { unfold distribute_angles, range.
    assert (H0 : Z.to_nat (ray_count rc) = 0%nat) by lia.
    rewrite H0. reflexivity. }
  rewrite H. reflexivity.
Qed.

Lemma cast_ray_player (fuel : nat) (rc rc' : Raycaster) (d : Vector2) (D : Q) :
  player rc' = player rc ->
  cast_ray cell_map split_position get_enter_side fuel rc' d D
  = cast_ray cell_map split_position get_enter_side fuel rc d D.
Proof.
  intros H. unfold cast_ray. now rewrite H.
Qed.

Lemma fill_ray_data_ok (fuel : nat) (rays : list (Q * Vector2)) (D : Q)
    (rc rc' : Raycaster) :
  fill_ray_data cell_map split_position get_enter_side fuel rc rays D
  = (rc', Ok tt) ->
  player rc' = player rc /\ fov rc' = fov rc /\ ray_count rc' = ray_count rc
  /\ (length (ray_data rc') <= length (ray_data rc) + length rays)%nat
  /\ (NoDupA Qeq (map fst (ray_data rc)) ->
      NoDupA Qeq (map fst (ray_data rc')))
  /\ forall k v,
       In (k, v) (ray_data rc') ->
       In (k, v) (ray_data rc)
       \/ exists angle d,
            In (angle, d) rays /\ k == angle
            /\ cast_ray cell_map split_position get_enter_side fuel rc d D
               = Ok v.
Proof.
  revert rc. induction rays as [|[angle d] rays IH]; intros rc; simpl.
  - intros [= <-]. repeat split; auto. lia.
  - destruct (cast_ray cell_map split_position get_enter_side fuel rc d D)
      as [value| |] eqn:Hray; try discriminate.
    intros H. apply IH in H.
    destruct H as (Hp & Hf & Hn & Hlen & Hdup & Hin).
    simpl in Hp, Hf, Hn, Hlen, Hdup.
    repeat split; trivial.
    + pose proof (dict_set_length (ray_data rc) angle value). lia.
    + intros Hrc. apply Hdup. now apply dict_set_distinct.
    + intros k v Hkv. destruct (Hin k v Hkv) as [H | (a' & d' & Ha & Hk & Hc)].
      * simpl in H. apply dict_set_entries in H.
        destruct H as [H | [Hk ->]]; [auto|]. right. exists angle, d. auto.
      * right. exists a', d'. repeat split; auto.
Qed.

Lemma in_combine_map (f : Q -> Vector2) (l : list Q) (a : Q) (d : Vector2) :
  In (a, d) (combine l (map f l)) -> In a l /\ d = f a.
Proof.
  induction l as [|x l IH]; simpl; [tauto|].
  intros [[= <- <-] | H]; [auto|]. destruct (IH H); auto.
Qed.

(** X20. After a [cast_rays] that returns, [ray_data] holds the rays of
    this call only: at most [ray_count] entries, under keys that are
    pairwise different, each key being one of the angles of
    [distribute_angles] and its value the result of [cast_ray] for the
    heading of an angle equal to the key. *)
Theorem cast_rays_data (fuel : nat) (rc rc' : Raycaster)
    (angle_center visible_distance : Q) :
  cast_rays cell_map split_position get_enter_side rotate fuel rc
    angle_center visible_distance = (rc', Ok tt) ->
  (length (ray_data rc') <= Z.to_nat (ray_count rc))%nat
  /\ NoDupA Qeq (map fst (ray_data rc'))
  /\ forall k v,
       In (k, v) (ray_data rc') ->
       exists angles angle,
         distribute_angles (fov rc) (ray_count rc) angle_center = Ok angles
         /\ In angle angles
         /\ k == angle
         /\ cast_ray cell_map split_position get_enter_side fuel rc
              (rotate (1, 0) angle) visible_distance = Ok v.
Proof.
  unfold cast_rays.
  destruct (distribute_angles (fov rc) (ray_count rc) angle_center)
    as [angles| |] eqn:Hangles; try discriminate.
  apply distribute_angles_length in Hangles. rename Hangles into Hlen.
  intros H. apply fill_ray_data_ok in H.
  destruct H as (_ & _ & _ & Hl & Hdup & Hin). simpl in Hl, Hdup.
  split.
  { rewrite length_combine, length_map, Nat.min_id in Hl. lia. }
  split; [apply Hdup; constructor|].
  intros k v Hkv. destruct (Hin k v Hkv) as [[] | (a & d & Ha & Hk & Hc)].
  apply in_combine_map in Ha. destruct Ha as [Ha ->].
  exists angles, a. split; [reflexivity|]. split; [exact Ha|].
  split; [exact Hk|].
  rewrite <- Hc. symmetry. now apply cast_ray_player.
Qed.

End Fan_properties.

Lemma cast_rays_no_rays_witness :
  cast_rays wall_map Cells.split_position Cells.get_enter_side
    rotate_right_angles 50 no_rays 90 3
  = (no_rays, Raise StatisticsError).
Proof.
  apply cast_rays_no_rays. vm_compute. discriminate.
Defined.

Lemma cast_rays_data_witness :
  exists rc',
    cast_rays wall_map Cells.split_position Cells.get_enter_side
      rotate_right_angles 50 three_rays 90 3 = (rc', Ok tt)
    /\ (length (ray_data rc') <= 3)%nat
    /\ NoDupA Qeq (map fst (ray_data rc'))
    /\ forall k v,
         In (k, v) (ray_data rc') ->
         exists angles angle,
           distribute_angles 180 3 90 = Ok angles
           /\ In angle angles
           /\ k == angle
           /\ cast_ray wall_map Cells.split_position Cells.get_enter_side
                50 three_rays (rotate_right_angles (1, 0) angle) 3 = Ok v.
Proof.
  eexists. split; [vm_compute; reflexivity|].
  apply (cast_rays_data wall_map Cells.split_position Cells.get_enter_side
           rotate_right_angles 50 three_rays _ 90 3).
  vm_compute. reflexivity.
Defined.

(** ** The trace of points *)

Section Trace.

Variable cell_map : CellMap.
Variable split_position : Vector2 -> Q -> Vector2 * Vector2.
Variable get_enter_side : Vector2 -> Vector2 -> Direction.t.

Lemma take_step_points (fuel : nat) (r r2 : CastingRay) (cell_pos : Vector2)
    (a : action) :
  take_step cell_map fuel r cell_pos = Ok (a, r2) ->
  match a with
  | Break => points r2 = points r ++ [ point_of (end_position r2) ]
  | _ => points r2 = points r
  end.
Proof.
  intros H. apply take_step_cases in H.
  destruct H as [[-> ->] | (s & _ & _ & [[-> (adj & _ & ->)] | [-> ->]])];
    reflexivity.
Qed.

Lemma cast_pass_points (fuel : nat) (r : CastingRay) (p : pass) :
  cast_pass cell_map split_position get_enter_side fuel r = Ok p ->
  match p with
  | Again r' =>
      exists l, points r' = points r ++ point_of (end_position r) :: l
  | Stop r' =>
      exists l,
        points r' = (points r ++ point_of (end_position r) :: l)
                    ++ [ point_of (end_position r') ]
  end.
Proof.
  intros H. apply cast_pass_cases in H.
  destruct H as (cell & cell_pos & Hsplit & H). cbv zeta in H.
  destruct H as [-> | [(pt & Hpt & ->) | (r1 & r2 & a & Hr1 & Hstep & ->)]].
  - exists []. reflexivity.
  - unfold teleport. simpl. destruct (portal_transform _ _ _). simpl.
    exists [ point_of (end_position r) ].
    now rewrite <- app_assoc.
  - assert (H1 : exists l,
                points r1 = points r ++ point_of (end_position r) :: l).
    { destruct Hr1 as [-> | (m & _ & Hm)]; [exists []; reflexivity|].
      apply mirror_reflect_fields in Hm. destruct Hm as [d ->]. simpl.
      exists [ point_of (end_position r) ]. now rewrite <- app_assoc. }
    destruct H1 as [l Hl].
    apply take_step_points in Hstep.
    destruct a; exists l; rewrite Hstep, Hl; reflexivity.
Qed.

(** X21. The trace of points of a completed cast starts with the position
    the ray was cast from and ends with the position it ended on. *)
Theorem cast_trace_ends (heading start : Vector2) (D : Q) (fuel : nat)
    (r' : CastingRay) :
  cast cell_map split_position get_enter_side fuel (new_ray heading D start)
  = Ok r' ->
  (exists l, points r' = point_of start :: l)
  /\ (exists l, points r' = l ++ [ point_of (end_position r') ]).
Proof.
  intros Hcast.
  refine (cast_invariant cell_map split_position get_enter_side
            (traced_from start)
            (fun r => (exists l, points r = point_of start :: l)
                      /\ (exists l, points r = l ++ [ point_of (end_position r) ]))
            _ _ fuel _ r' _ Hcast).
  - intros fuel0 r r0 Hr Hp. apply cast_pass_points in Hp.
    destruct Hp as [l Hl]. right.
    destruct Hr as [[Hnil Hstart] | [l0 Hl0]].
    + rewrite Hl, Hnil, Hstart. simpl. eauto.
    + rewrite Hl, Hl0. simpl. eauto.
  - intros fuel0 r r0 Hr Hp. apply cast_pass_points in Hp.
    destruct Hp as [l Hl]. split; [|eauto].
    destruct Hr as [[Hnil Hstart] | [l0 Hl0]].
    + rewrite Hl, Hnil, Hstart. simpl. eauto.
    + rewrite Hl, Hl0. simpl. eauto.
  - left. split; reflexivity.
Qed.

End Trace.

Lemma cast_trace_ends_witness :
  exists r',
    cast mirror_map Cells.split_position Cells.get_enter_side 10
      (new_ray (1, 0) 3 (5, 5)) = Ok r'
    /\ (exists l, points r' = point_of (5, 5) :: l)
    /\ (exists l, points r' = l ++ [ point_of (end_position r') ]).
Proof.
  eexists. split; [vm_compute; reflexivity|].
  apply (cast_trace_ends mirror_map Cells.split_position
           Cells.get_enter_side (1, 0) (5, 5) 3 10).
  vm_compute. reflexivity.
Defined.

(** ** A fan of different angles *)

Lemma dict_set_fresh (data : list (Q * ray_result)) (angle : Q)
    (value : ray_result) :
  ~ InA Qeq angle (map fst data) ->
  map fst (dict_set data angle value) = map fst data ++ [angle].
Proof.
  induction data as [|[k v] data IH]; simpl; intros H; [reflexivity|].
  destruct (Qeq_bool k angle) eqn:Hk.
  - exfalso. apply H. constructor. symmetry. now apply Qeq_bool_iff.
  - simpl. rewrite IH; [reflexivity|]. intros Hin. apply H. now constructor 2.
Qed.

Lemma NoDupA_app_head (l l' : list Q) (a : Q) :
  NoDupA Qeq (l ++ a :: l') -> ~ InA Qeq a l.
Proof.
  induction l as [|x l IH]; simpl; intros H Hin; [inversion Hin|].
  inversion H as [|? ? Hx Hrest]; subst.
  inversion Hin as [? ? Hax | ? ? Hal]; subst.
  - apply Hx. apply InA_app_iff. right. constructor. now symmetry.
  - now apply IH.
Qed.

Lemma distinct_NoDupA (l : list Q) : distinct l = true -> NoDupA Qeq l.
Proof.
  induction l as [|a l IH]; simpl; intros H; [constructor|].
  apply andb_prop in H. destruct H as [Ha Hl].
  constructor; [|auto].
  intros Hin. apply InA_alt in Hin. destruct Hin as (b & Hab & Hb).
  rewrite forallb_forall in Ha. specialize (Ha b Hb).
  apply negb_true_iff, not_true_iff_false in Ha.
  apply Ha, Qeq_bool_iff, Hab.
Qed.

Section Fan_count.

Variable cell_map : CellMap.
Variable split_position : Vector2 -> Q -> Vector2 * Vector2.
Variable get_enter_side : Vector2 -> Vector2 -> Direction.t.
Variable rotate : Vector2 -> Q -> Vector2.

Lemma fill_ray_data_keys (fuel : nat) (rays : list (Q * Vector2)) (D : Q)
    (rc rc' : Raycaster) :
  NoDupA Qeq (map fst (ray_data rc) ++ map fst rays) ->
  fill_ray_data cell_map split_position get_enter_side fuel rc rays D
  = (rc', Ok tt) ->
  map fst (ray_data rc') = map fst (ray_data rc) ++ map fst rays.
Proof.
  revert rc. induction rays as [|[angle d] rays IH]; intros rc Hdup; simpl.
  - intros [= <-]. now rewrite app_nil_r.
  - destruct (cast_ray cell_map split_position get_enter_side fuel rc d D)
      as [value| |]; try discriminate.
    intros H. simpl in Hdup.
    pose proof (NoDupA_app_head _ _ _ Hdup) as Hfresh.
    apply IH in H; simpl.
    + rewrite H. simpl. rewrite dict_set_fresh by exact Hfresh.
      now rewrite <- app_assoc.
    + simpl. rewrite dict_set_fresh by exact Hfresh.
      now rewrite <- app_assoc.
Qed.

Lemma map_fst_combine (f : Q -> Vector2) (l : list Q) :
  map fst (combine l (map f l)) = l.
Proof.
  induction l as [|a l IH]; simpl; [reflexivity | now rewrite IH].
Qed.

(** X22. When no two angles of the fan are equal, no ray is lost: after a
    [cast_rays] that returns, the keys of [ray_data] are the [ray_count]
    angles of [distribute_angles], in their order. *)
Theorem cast_rays_all_rays (fuel : nat) (rc rc' : Raycaster)
    (angle_center visible_distance : Q) (angles : list Q) :
  distribute_angles (fov rc) (ray_count rc) angle_center = Ok angles ->
  distinct angles = true ->
  cast_rays cell_map split_position get_enter_side rotate fuel rc
    angle_center visible_distance = (rc', Ok tt) ->
  map fst (ray_data rc') = angles
  /\ length (ray_data rc') = Z.to_nat (ray_count rc).
Proof.
  intros Hangles Hdistinct. unfold cast_rays. rewrite Hangles.
  intros H. apply distinct_NoDupA in Hdistinct.
  apply fill_ray_data_keys in H.
  - simpl in H. rewrite map_fst_combine in H.
    apply distribute_angles_length in Hangles.
    split; [exact H|].
    rewrite <- Hangles, <- H. now rewrite length_map.
  - simpl. now rewrite map_fst_combine.
Qed.

End Fan_count.

Lemma cast_rays_all_rays_witness :
  exists rc' angles,
    cast_rays wall_map Cells.split_position Cells.get_enter_side
      rotate_right_angles 50 three_rays 90 3 = (rc', Ok tt)
    /\ distribute_angles 180 3 90 = Ok angles
    /\ map fst (ray_data rc') = angles
    /\ length (ray_data rc') = 3%nat.
Proof.
  eexists. eexists. split; [vm_compute; reflexivity|].
  split; [vm_compute; reflexivity|].
  apply (cast_rays_all_rays wall_map Cells.split_position Cells.get_enter_side
           rotate_right_angles 50 three_rays _ 90 3);
    vm_compute; reflexivity.
Defined.

(** ** A fan with a repeated angle *)

Lemma dict_set_present (data : list (Q * ray_result)) (angle : Q)
    (value : ray_result) :
  InA Qeq angle (map fst data) ->
  length (dict_set data angle value) = length data.
Proof.
  induction data as [|[k v] data IH]; simpl; intros H; [inversion H|].
  destruct (Qeq_bool k angle) eqn:Hk; [reflexivity|].
  simpl. f_equal. apply IH.
  inversion H as [? ? Hak | ? ? Hin]; subst; [|exact Hin].
  exfalso. apply not_true_iff_false in Hk. apply Hk, Qeq_bool_iff.
  now symmetry.
Qed.

Lemma dict_set_keeps (data : list (Q * ray_result)) (angle k : Q)
    (value : ray_result) :
  InA Qeq k (map fst data) -> InA Qeq k (map fst (dict_set data angle value)).
Proof.
  induction data as [|[k0 v0] data IH]; simpl; intros H; [inversion H|].
  destruct (Qeq_bool k0 angle); simpl; [exact H|].
  inversion H as [? ? Hk | ? ? Hin]; subst; [now constructor|].
  constructor 2. now apply IH.
Qed.

Lemma dict_set_has (data : list (Q * ray_result)) (angle : Q)
    (value : ray_result) :
  InA Qeq angle (map fst (dict_set data angle value)).
Proof.
  induction data as [|[k v] data IH]; simpl.
  - now constructor.
  - destruct (Qeq_bool k angle) eqn:Hk; simpl.
    + constructor. symmetry. now apply Qeq_bool_iff.
    + now constructor 2.
Qed.

Lemma combine_map (f : Q -> Vector2) (l : list Q) :
  combine l (map f l) = map (fun a => (a, f a)) l.
Proof.
  induction l as [|a l IH]; simpl; [reflexivity | now rewrite IH].
Qed.

Section Fan_turn.

Variable cell_map : CellMap.
Variable split_position : Vector2 -> Q -> Vector2 * Vector2.
Variable get_enter_side : Vector2 -> Vector2 -> Direction.t.
Variable rotate : Vector2 -> Q -> Vector2.

Lemma fill_ray_data_app (fuel : nat) (rays rays' : list (Q * Vector2))
    (D : Q) (rc rc' : Raycaster) :
  fill_ray_data cell_map split_position get_enter_side fuel rc
    (rays ++ rays') D = (rc', Ok tt) ->
  exists rc1,
    fill_ray_data cell_map split_position get_enter_side fuel rc rays D
    = (rc1, Ok tt)
    /\ fill_ray_data cell_map split_position get_enter_side fuel rc1 rays' D
       = (rc', Ok tt).
Proof.
  revert rc. induction rays as [|[angle d] rays IH]; intros rc; simpl.
  - intros H. exists rc. auto.
  - destruct (cast_ray cell_map split_position get_enter_side fuel rc d D)
      as [value| |]; try discriminate.
    apply IH.
Qed.

Lemma fill_ray_data_keeps (fuel : nat) (rays : list (Q * Vector2)) (D : Q)
    (rc rc' : Raycaster) (k : Q) :
  fill_ray_data cell_map split_position get_enter_side fuel rc rays D
  = (rc', Ok tt) ->
  InA Qeq k (map fst (ray_data rc)) -> InA Qeq k (map fst (ray_data rc')).
Proof.
  revert rc. induction rays as [|[angle d] rays IH]; intros rc; simpl.
  - intros [= <-]. trivial.
  - destruct (cast_ray cell_map split_position get_enter_side fuel rc d D)
      as [value| |]; try discriminate.
    intros H Hk. apply (IH _ H). simpl. now apply dict_set_keeps.
Qed.

Lemma fill_ray_data_repeated (fuel : nat) (first last : Q * Vector2)
    (middle : list (Q * Vector2)) (D : Q) (rc rc' : Raycaster) :
  fst last == fst first ->
  fill_ray_data cell_map split_position get_enter_side fuel rc
    (first :: middle ++ [last]) D = (rc', Ok tt) ->
  (length (ray_data rc') <= length (ray_data rc) + S (length middle))%nat.
Proof.
  destruct first as [a0 d0], last as [al dl]. simpl fst. intros Heq.
  cbn [fill_ray_data].
  destruct (cast_ray cell_map split_position get_enter_side fuel rc d0 D)
    as [v0| |]; try discriminate.
  intros H. apply fill_ray_data_app in H. destruct H as (rc1 & Hmid & Hlast).
  pose proof (fill_ray_data_keeps _ _ _ _ _ a0 Hmid) as Hkeep.
  simpl in Hkeep. specialize (Hkeep (dict_set_has _ _ _)).
  apply fill_ray_data_ok in Hmid.
  destruct Hmid as (_ & _ & _ & Hlen & _). simpl in Hlen.
  pose proof (dict_set_length (ray_data rc) a0 v0) as Hfirst.
  simpl in Hlast.
  destruct (cast_ray cell_map split_position get_enter_side fuel rc1 dl D)
    as [vl| |]; try discriminate.
  injection Hlast as <-. simpl.
  rewrite dict_set_present; [lia|].
  apply InA_eqA with a0; [exact Q_Setoid | now symmetry | exact Hkeep].
Qed.

(** X23. A fan in which two rays have the same angle loses a ray: the
    later ray replaces the earlier one under their key, and [ray_data] ends
    with fewer than [ray_count] rays. *)
Theorem cast_rays_repeated_angle (fuel : nat) (rc rc' : Raycaster)
    (angle_center visible_distance : Q) (before middle after : list Q)
    (earlier later : Q) :
  distribute_angles (fov rc) (ray_count rc) angle_center
  = Ok (before ++ earlier :: middle ++ later :: after) ->
  later == earlier ->
  cast_rays cell_map split_position get_enter_side rotate fuel rc
    angle_center visible_distance = (rc', Ok tt) ->
  (length (ray_data rc') < Z.to_nat (ray_count rc))%nat.
Proof.
  intros Hangles Heq. unfold cast_rays. rewrite Hangles.
  apply distribute_angles_length in Hangles.
  rewrite length_app in Hangles. cbn [length] in Hangles.
  rewrite length_app in Hangles. cbn [length] in Hangles.
  cbv zeta. rewrite combine_map.
  replace (before ++ earlier :: middle ++ later :: after)
    with (before ++ (earlier :: middle ++ [later]) ++ after)
    by (cbn [app]; now rewrite <- app_assoc).
  rewrite !map_app. cbn [map]. rewrite map_app. cbn [map].
  intros H.
  apply fill_ray_data_app in H. destruct H as (rc1 & H1 & H).
  apply fill_ray_data_app in H. destruct H as (rc2 & H2 & H3).
  apply fill_ray_data_ok in H1. destruct H1 as (_ & _ & _ & Hl1 & _).
  apply fill_ray_data_repeated in H2; [|exact Heq].
  apply fill_ray_data_ok in H3. destruct H3 as (_ & _ & _ & Hl3 & _).
  simpl in Hl1. rewrite !length_map in *. lia.
Qed.

End Fan_turn.

Lemma cast_rays_repeated_angle_witness :
  exists rc',
    cast_rays wall_map Cells.split_position Cells.get_enter_side
      rotate_right_angles 50 full_turn 180 3 = (rc', Ok tt)
    /\ (length (ray_data rc') < 3)%nat.
Proof.
  eexists. split; [vm_compute; reflexivity|].
  apply (cast_rays_repeated_angle wall_map Cells.split_position
           Cells.get_enter_side rotate_right_angles 50 full_turn _ 180 3
           [] [720 # 4] [] (0 # 4) (0 # 4)).
  - vm_compute. reflexivity.
  - reflexivity.
  - vm_compute. reflexivity.
Defined.

(** ** The shortening of a step at the border *)

Section Shortening.

Variable cell_map : CellMap.

Lemma cut_S (step : Q) (k : nat) : cut (step * 0.99) k = cut step (S k).
Proof.
  unfold cut. induction k as [|k IH]; [reflexivity|].
  simpl in *. now rewrite IH.
Qed.

(** X24. The step shortened at the border of the map is the first of
    [step * 0.99], [step * 0.99^2], ... whose end position is within
    bounds: the loop returns it when it finds it, and it finds it whenever
    there is one. *)
Theorem shrink_first_in_bounds (r : CastingRay) (step : Q) (k : nat) :
  let lands adjusted :=
    in_bounds cell_map
      (Vec.add (end_position r) (position_step cell_map r adjusted)) in
  lands (cut step (S k)) = true ->
  (forall j, (j < k)%nat -> lands (cut step (S j)) = false) ->
  forall fuel, (k < fuel)%nat ->
    shrink cell_map fuel r step = Ok (cut step (S k)).
Proof.
  cbv zeta. revert step.
  induction k as [|k IH]; intros step Hin Hout fuel Hfuel.
  - destruct fuel as [|fuel]; [lia|]. cbn [shrink].
    change (step * 0.99) with (cut step 1). now rewrite Hin.
  - destruct fuel as [|fuel]; [lia|]. cbn [shrink].
    change (step * 0.99) with (cut step 1) at 1.
    rewrite (Hout 0%nat) by lia.
    rewrite <- cut_S. apply IH.
    + now rewrite cut_S.
    + intros j Hj. rewrite cut_S. apply Hout. lia.
    + lia.
Qed.

End Shortening.

Lemma shrink_first_in_bounds_witness :
  shrink wall_map 5 (new_ray (-1, 0) 3 (5, 5)) (501 # 1000)
  = Ok (cut (501 # 1000) 1).
Proof.
  apply (shrink_first_in_bounds wall_map (new_ray (-1, 0) 3 (5, 5))
           (501 # 1000) 0).
  - vm_compute. reflexivity.
  - intros j Hj. lia.
  - lia.
Defined.

(** The y attempt of the per-axis move follows the x attempt: the player of
    [ledge_map] moves from (9.5, 9.5) to (10.5, 10.5), through the cell
    (1, 0), although the cell (0, 1) of (old x, new y) holds a wall. *)
Lemma glide_y_follows_x :
  Player.position
    (Player.glide ledge_map player_on_ledge (10 + (1 # 2)) (10 + (1 # 2)))
  = (10 + (1 # 2), 10 + (1 # 2))
  /\ truthy (Player.type_at ledge_map
               (Player.cell_of ledge_map
                  (Vec.x (Player.position player_on_ledge))
                  (10 + (1 # 2)))) = true.
Proof.
  split; vm_compute; reflexivity.
Qed.

(** ** Binary64: [step_to_edge] *)

Section Binary64_edge.

Local Open Scope float_scope.

Lemma positive_not_zero (d : float) : (0 <? d) = true -> (d =? 0) = false.
Proof.
  rewrite ltb_spec, FloatAxioms.eqb_spec.
  change (Prim2SF 0) with (S754_zero false).
  destruct (Prim2SF d) as [s| s | |s m e]; cbn; try discriminate;
    try (destruct s; try discriminate; reflexivity).
Qed.

Lemma negative_abs_not_zero (d : float) :
  (d <? 0) = true -> (abs d =? 0) = false.
Proof.
  rewrite ltb_spec, FloatAxioms.eqb_spec, abs_spec.
  change (Prim2SF 0) with (S754_zero false).
  destruct (Prim2SF d) as [s| s | |s m e]; cbn; try discriminate;
    try (destruct s; try discriminate; reflexivity).
Qed.

(** C10 (amended). On binary64 numbers, whatever the offsets and the
    heading: [step_to_edge] never divides by a zero, and returns the minimum
    of the two axis distances, each of which is [(1 - offset) / component]
    for a positive component, [offset / |component| + 0.001] for a negative
    one, and infinite otherwise. *)
Theorem step_to_edge_never_raises (position direction : float * float) :
  let axis offset component :=
    if 0 <? component then (1 - offset) / component
    else if component <? 0
         then offset / abs component + 0x1.0624dd2f1a9fcp-10
         else infinity in
  let step_x := axis (fst position) (fst direction) in
  let step_y := axis (snd position) (snd direction) in
  Binary64.step_to_edge position direction
  = Ok (if step_y <? step_x then step_y else step_x).
Proof.
  cbv zeta. unfold Binary64.step_to_edge, Binary64.truediv.
  destruct (0 <? fst direction) eqn:Hx.
  - rewrite (positive_not_zero _ Hx). cbn [bind].
    destruct (0 <? snd direction) eqn:Hy.
    + rewrite (positive_not_zero _ Hy). reflexivity.
    + destruct (snd direction <? 0) eqn:Hy'; [|reflexivity].
      rewrite (negative_abs_not_zero _ Hy'). reflexivity.
  - destruct (fst direction <? 0) eqn:Hx'.
    + rewrite (negative_abs_not_zero _ Hx'). cbn [bind].
      destruct (0 <? snd direction) eqn:Hy.
      * rewrite (positive_not_zero _ Hy). reflexivity.
      * destruct (snd direction <? 0) eqn:Hy'; [|reflexivity].
        rewrite (negative_abs_not_zero _ Hy'). reflexivity.
    + cbn [bind].
      destruct (0 <? snd direction) eqn:Hy.
      * rewrite (positive_not_zero _ Hy). reflexivity.
      * destruct (snd direction <? 0) eqn:Hy'; [|reflexivity].
        rewrite (negative_abs_not_zero _ Hy'). reflexivity.
Qed.

(** C10, as stated, fails on binary64 numbers.  With the offset (0, 0) and
    the heading (2^-1030, 0) the quotient [1 / 2^-1030] overflows and the
    step is infinite; with the offset (1 - 2^-53, 0), the largest float
    below 1, and the heading (1e308, 0) the quotient underflows and the step
    is 0.0. *)
Lemma step_to_edge_overflow_underflow :
  Binary64.step_to_edge (0, 0) (0x1p-1030, 0) = Ok infinity
  /\ Binary64.step_to_edge (0x1.fffffffffffffp-1, 0)
       (0x1.1ccf385ebc8ap+1023, 0) = Ok 0.
Proof.
  split; vm_compute; reflexivity.
Qed.

End Binary64_edge.

(** ** Binary64: the spread of angles *)

Section Binary64_angles.

Local Open Scope float_scope.




Variable sorted : list float -> list float.

Hypothesis sorted_permutation : forall l, Permutation (sorted l) l.




End Binary64_angles.


